(** * A shallow embedding of the Minesweeper knowledge engine

    The development follows [minesweeper.py]: the [Sentence] class, the
    [MinesweeperAI] class and, for the inputs the engine receives, the
    [nearby_mines] count of the [Minesweeper] board.

    Python sets of cells are finite sets ([gset]) of pairs of integers, the
    knowledge list is a list of sentence values.  Every entry of the
    knowledge list is an object of its own with a cell set of its own
    ([add_knowledge] is the only place that constructs a [Sentence], and
    [Sentence.__init__] copies the set it is given), so a sentence mutated in
    place through a loop variable is the list entry at the position the loop
    variable was read from. *)

From stdpp Require Import gmap list sets.

#[local] Set Warnings "-clear-no-such-hyp".

Open Scope Z_scope.

(** ** Cells and sentences *)

Abbreviation cell := (Z * Z)%type.

Record Sentence := mkSentence {
  cells : gset cell;
  count : Z
}.

Global Instance Sentence_eq_dec : EqDecision Sentence.
Proof. solve_decision. Defined.

Definition len (X : gset cell) : Z := Z.of_nat (size X).

Module Sentence.

(** [Sentence.known_mines] *)
Definition known_mines (s : Sentence) : gset cell :=
  if bool_decide (len (cells s) = count s) && bool_decide (count s ≠ 0)
  then cells s
  else ∅.

(** [Sentence.known_safes] *)
Definition known_safes (s : Sentence) : gset cell :=
  if bool_decide (count s = 0) then cells s else ∅.

(** [Sentence.mark_mine] *)
Definition mark_mine (c : cell) (s : Sentence) : Sentence :=
  if bool_decide (c ∈ cells s)
  then mkSentence (cells s ∖ {[c]}) (count s - 1)
  else s.

(** [Sentence.mark_safe] *)
Definition mark_safe (c : cell) (s : Sentence) : Sentence :=
  if bool_decide (c ∈ cells s)
  then mkSentence (cells s ∖ {[c]}) (count s)
  else s.

End Sentence.

(** ** Iterating over a list that the loop body may change

    [for x in xs: body] reads [xs] through a list iterator: a position that
    starts at 0, is compared with the current length of the list before every
    step and is advanced after the element at that position has been read.
    Removing elements inside the body shortens the list without moving the
    position.  [fuel] bounds the number of steps; [None] means that the
    bound was reached before the iterator was exhausted. *)

Section for_in.
Context {St A : Type}.
Variable items : St → list A.
Variable body : nat → A → St → option St.

Fixpoint for_in (fuel idx : nat) (st : St) : option St :=
  match items st !! idx with
  | None => Some st
  | Some x =>
      match fuel with
      | O => None
      | S fuel' => st' ← body idx x st; for_in fuel' (S idx) st'
      end
  end.
End for_in.

(** [list.remove(x)]: drops the first element equal to [x]. *)
Fixpoint remove (x : Sentence) (l : list Sentence) : list Sentence :=
  match l with
  | [] => []
  | y :: l' => if bool_decide (y = x) then l' else y :: remove x l'
  end.

(** [range(n - 1, n + 2)] *)
Definition range3 (n : Z) : list Z := [n - 1; n; n + 1].

(** ** The board *)

Module Minesweeper.

(** The board is kept through its set of mines: the constructor sets
    [board[i][j]] exactly for the cells it adds to [self.mines]. *)
Record t := mk {
  height : Z;
  width : Z;
  mines : gset cell
}.

Definition is_mine (g : t) (c : cell) : bool := bool_decide (c ∈ mines g).

(** [Minesweeper.nearby_mines] *)
Definition nearby_mines (g : t) (c : cell) : Z :=
  foldl (λ count i,
    foldl (λ count j,
      if bool_decide ((i, j) = c) then count
      else if bool_decide (0 ≤ i < height g) && bool_decide (0 ≤ j < width g)
           then (if is_mine g (i, j) then count + 1 else count)
           else count)
      count (range3 c.2))
    0 (range3 c.1).

End Minesweeper.

(** ** The player *)

Module MinesweeperAI.

Record t := mk {
  height : Z;
  width : Z;
  moves_made : gset cell;
  mines : gset cell;
  safes : gset cell;
  knowledge : list Sentence
}.

(** [MinesweeperAI.__init__] *)
Definition init (h w : Z) : t := mk h w ∅ ∅ ∅ [].

Definition set_knowledge (K : list Sentence) (st : t) : t :=
  mk (height st) (width st) (moves_made st) (mines st) (safes st) K.

(** The body of the two nested loops of [knowledge_update], for the
    sentence [i] of the outer loop and the sentence [j] read at position
    [jdx] by the inner loop.  The loop state is the knowledge list and
    the flag [breaker].

    [j.cells -= i.cells; j.count -= i.count] rewrites the list entry at
    [jdx]: nothing is removed between reading [j] and changing it.  The
    sentence [i] is carried by value: a sentence is changed only when the
    cells of [i] are strictly inside its own, which is never the case for
    [i] itself, so [i] stays as it was read for the whole inner loop.
    [x in self.knowledge] and [self.knowledge.remove(x)] compare with
    [Sentence.__eq__], that is cells and count. *)
Definition eliminate (i : Sentence) (jdx : nat) (j : Sentence)
    (st : list Sentence * bool) : list Sentence * bool :=
  let '(K, breaker) := st in
  if bool_decide (len (cells i) ≠ 0) && bool_decide (len (cells j) ≠ 0) then
    if bool_decide (cells i ⊂ cells j)
    then (<[jdx := mkSentence (cells j ∖ cells i) (count j - count i)]> K, false)
    else (K, breaker)
  else
    let K1 := if bool_decide (i ∈ K) && bool_decide (len (cells i) = 0)
              then remove i K else K in
    let K2 := if bool_decide (j ∈ K1) && bool_decide (len (cells j) = 0)
              then remove j K1 else K1 in
    (K2, breaker).

(** [for j in self.knowledge: ...] *)
Definition inner_loop (i : Sentence) (st : list Sentence * bool)
    : option (list Sentence * bool) :=
  for_in fst (λ jdx j st, Some (eliminate i jdx j st)) (length st.1) 0%nat st.

(** [for i in self.knowledge: for j in self.knowledge: ...], started with
    [breaker = True] *)
Definition pass (K : list Sentence) : option (list Sentence * bool) :=
  for_in fst (λ _ i st, inner_loop i st) (length K) 0%nat (K, true).

(** [while True: ...; if breaker: break], at most [fuel] passes *)
Fixpoint knowledge_loop (fuel : nat) (K : list Sentence)
    : option (list Sentence) :=
  match fuel with
  | O => None
  | S fuel' =>
      match pass K with
      | None => None
      | Some (K', breaker) =>
          if breaker then Some K' else knowledge_loop fuel' K'
      end
  end.

(** [MinesweeperAI.knowledge_update] *)
Definition knowledge_update (fuel : nat) (st : t) : option t :=
  K ← knowledge_loop fuel (knowledge st);
  Some (set_knowledge K st).

(** [MinesweeperAI.mark_mine] *)
Definition mark_mine (c : cell) (st : t) : t :=
  mk (height st) (width st) (moves_made st) ({[c]} ∪ mines st) (safes st)
     (Sentence.mark_mine c <$> knowledge st).

(** [MinesweeperAI.mark_safe] *)
Definition mark_safe (c : cell) (st : t) : t :=
  mk (height st) (width st) (moves_made st) (mines st) ({[c]} ∪ safes st)
     (Sentence.mark_safe c <$> knowledge st).

(** The neighbours collected by the two [range] loops of
    [add_knowledge]. *)
Definition nearby_cells (st : t) (c : cell) : gset cell :=
  foldl (λ acc i,
    foldl (λ acc j,
      if bool_decide (0 ≤ i < height st) && bool_decide (0 ≤ j < width st)
         && bool_decide ((i, j) ≠ c)
      then {[(i, j)]} ∪ acc
      else acc)
      acc (range3 c.2))
    (∅ : gset cell) (range3 c.1).

(** The sentence [add_knowledge] builds for the opened cell, in the
    state reached after the cell has been recorded and marked safe. *)
Definition new_sentence (st : t) (c : cell) (n : Z) : Sentence :=
  let nearby := nearby_cells st c in
  let nearby_unknown := nearby ∖ moves_made st ∖ mines st ∖ safes st in
  let nearby_unknown_count := n - len (nearby ∩ mines st) in
  mkSentence nearby_unknown nearby_unknown_count.

(** The last loop of [add_knowledge]. *)
Definition extract (st : t) : t :=
  foldl (λ st sentence,
    let st1 := mk (height st) (width st) (moves_made st) (mines st)
                  (safes st ∪ Sentence.known_safes sentence) (knowledge st) in
    mk (height st1) (width st1) (moves_made st1)
       (mines st1 ∪ Sentence.known_mines sentence) (safes st1) (knowledge st1))
    st (knowledge st).

(** [self.moves_made.add(cell)] *)
Definition add_move (c : cell) (st : t) : t :=
  mk (height st) (width st) ({[c]} ∪ moves_made st) (mines st) (safes st)
     (knowledge st).

(** [MinesweeperAI.add_knowledge] *)
Definition add_knowledge (fuel : nat) (c : cell) (n : Z) (st : t) : option t :=
  let st1 := add_move c st in
  let st2 := mark_safe c st1 in
  let s := new_sentence st2 c n in
  st3 ← (if bool_decide (len (cells s) > 0)
         then knowledge_update fuel (set_knowledge (knowledge st2 ++ [s]) st2)
         else Some st2);
  Some (extract st3).

(** [MinesweeperAI.make_safe_move].  The order in which a Python set is
    iterated is not fixed by its contents: [order] is the order in which
    [for move in self.safes] yields the cells of [self.safes].  The
    result is paired with the state after the call. *)
Fixpoint first_safe (order : list cell) (st : t) : option cell :=
  match order with
  | [] => None
  | move :: order' =>
      if bool_decide (move ∉ moves_made st) && bool_decide (move ∈ safes st)
      then Some move
      else first_safe order' st
  end.

Definition make_safe_move (order : list cell) (st : t) : option cell * t :=
  (first_safe order st, st).

(** [range(n)] *)
Definition range (n : Z) : list Z := seqZ 0 n.

(** The list [potential_moves] that [make_random_move] builds with its two
    [range] loops. *)
Definition potential_moves (st : t) : list cell :=
  foldl (λ acc i,
    foldl (λ acc j,
      if bool_decide ((i, j) ∉ moves_made st) && bool_decide ((i, j) ∉ mines st)
      then acc ++ [(i, j)]
      else acc)
      acc (range (width st)))
    [] (range (height st)).

(** [MinesweeperAI.make_random_move].  [r] is the position that
    [random.choice] draws, a number below the length of the list it is
    given.  The result is paired with the state after the call. *)
Definition make_random_move (r : nat) (st : t) : option cell * t :=
  let moves := potential_moves st in
  if bool_decide (length moves ≠ 0%nat) then (moves !! r, st) else (None, st).

End MinesweeperAI.

(** ** Notions used to state the properties *)

(** The number of cells in all sentences of the knowledge list: the
    measure of the fixpoint loop. *)
Definition total_cells (K : list Sentence) : nat :=
  sum_list_with (λ s, size (cells s)) K.

(** The guarded [self.knowledge.remove(x)] of the [else] branch of
    [knowledge_update]. *)
Definition prune (x : Sentence) (K : list Sentence) : list Sentence :=
  if bool_decide (x ∈ K) && bool_decide (len (cells x) = 0)
  then remove x K else K.

(** The three ways a step of the nested loops can go. *)
Inductive step_kind (i : Sentence) (jdx : nat) (j : Sentence)
    (K : list Sentence) (b : bool) : list Sentence * bool → Prop :=
| step_subtract :
    cells i ≠ ∅ → cells j ≠ ∅ → cells i ⊂ cells j →
    step_kind i jdx j K b
      (<[jdx := mkSentence (cells j ∖ cells i) (count j - count i)]> K, false)
| step_skip :
    cells i ≠ ∅ → cells j ≠ ∅ → ¬ cells i ⊂ cells j →
    step_kind i jdx j K b (K, b)
| step_prune :
    cells i = ∅ ∨ cells j = ∅ →
    step_kind i jdx j K b (prune j (prune i K), b).

(** A sentence is true of a mine layout [M] when its count is the number
    of its cells that are mines. *)
Definition holds (M : gset cell) (s : Sentence) : Prop :=
  count s = len (cells s ∩ M).

Global Instance holds_dec M s : Decision (holds M s).
Proof. unfold holds. apply _. Defined.

(** Calls of the engine-level [mark_mine] and [mark_safe]. *)
Inductive mark :=
| MarkMine (c : cell)
| MarkSafe (c : cell).

Definition marked_cell (m : mark) : cell :=
  match m with MarkMine c | MarkSafe c => c end.

Definition apply_mark (st : MinesweeperAI.t) (m : mark) : MinesweeperAI.t :=
  match m with
  | MarkMine c => MinesweeperAI.mark_mine c st
  | MarkSafe c => MinesweeperAI.mark_safe c st
  end.

Definition apply_marks (ms : list mark) (st : MinesweeperAI.t) : MinesweeperAI.t :=
  foldl apply_mark st ms.

(** No sentence mentions a cell of [X]. *)
Definition avoids (X : gset cell) (K : list Sentence) : Prop :=
  Forall (λ s, cells s ## X) K.

(** No sentence mentions a known mine or a known safe cell. *)
Definition purged (st : MinesweeperAI.t) : Prop :=
  avoids (MinesweeperAI.mines st ∪ MinesweeperAI.safes st)
         (MinesweeperAI.knowledge st).

(** No sentence mentions a known mine, a known safe cell or an opened
    cell. *)
Definition resolved_free (st : MinesweeperAI.t) : Prop :=
  avoids (MinesweeperAI.mines st ∪ MinesweeperAI.safes st
          ∪ MinesweeperAI.moves_made st)
         (MinesweeperAI.knowledge st).

(** The cells within one row and one column of [c], [c] excluded. *)
Definition adjacent (c x : cell) : Prop :=
  -1 ≤ x.1 - c.1 ≤ 1 ∧ -1 ≤ x.2 - c.2 ≤ 1 ∧ x ≠ c.

Definition in_bounds (h w : Z) (x : cell) : Prop :=
  0 ≤ x.1 < h ∧ 0 ≤ x.2 < w.

(** The cells visited by the two [range] loops around [c], in the order
    of the loops. *)
Definition block (c : cell) : list cell :=
  [(c.1 - 1, c.2 - 1); (c.1 - 1, c.2); (c.1 - 1, c.2 + 1);
   (c.1, c.2 - 1); (c.1, c.2); (c.1, c.2 + 1);
   (c.1 + 1, c.2 - 1); (c.1 + 1, c.2); (c.1 + 1, c.2 + 1)].

(** The states the player reaches on the board [g] when every call
    reports what the board holds: [add_knowledge] is called for a cell of
    the board that is not a mine, with the count [nearby_mines] gives for
    it; [mark_mine] is called for mines and [mark_safe] for the other cells
    of the board. *)
Inductive reachable (g : Minesweeper.t) : MinesweeperAI.t → Prop :=
| reach_init :
    reachable g (MinesweeperAI.init (Minesweeper.height g) (Minesweeper.width g))
| reach_add_knowledge st st' fuel c :
    reachable g st →
    in_bounds (Minesweeper.height g) (Minesweeper.width g) c →
    Minesweeper.is_mine g c = false →
    MinesweeperAI.add_knowledge fuel c (Minesweeper.nearby_mines g c) st
      = Some st' →
    reachable g st'
| reach_mark_mine st c :
    reachable g st →
    in_bounds (Minesweeper.height g) (Minesweeper.width g) c →
    Minesweeper.is_mine g c = true →
    reachable g (MinesweeperAI.mark_mine c st)
| reach_mark_safe st c :
    reachable g st →
    in_bounds (Minesweeper.height g) (Minesweeper.width g) c →
    Minesweeper.is_mine g c = false →
    reachable g (MinesweeperAI.mark_safe c st).

(** What the player knows is true of the board. *)
Record sound (g : Minesweeper.t) (st : MinesweeperAI.t) : Prop := mk_sound {
  sound_height : MinesweeperAI.height st = Minesweeper.height g;
  sound_width : MinesweeperAI.width st = Minesweeper.width g;
  sound_moves : MinesweeperAI.moves_made st ## Minesweeper.mines g;
  sound_mines : MinesweeperAI.mines st ⊆ Minesweeper.mines g;
  sound_safes : MinesweeperAI.safes st ## Minesweeper.mines g;
  sound_knowledge : Forall (holds (Minesweeper.mines g)) (MinesweeperAI.knowledge st)
}.

(** [knowledge_update] followed by the extraction loop, as in the last
    lines of [add_knowledge]. *)
Definition update_and_extract (fuel : nat) (st : MinesweeperAI.t)
    : option MinesweeperAI.t :=
  st' ← MinesweeperAI.knowledge_update fuel st;
  Some (MinesweeperAI.extract st').

(** A knowledge list on which the fixpoint loop has nothing to do: no
    sentence is empty and no sentence's cells are strictly inside
    another's. *)
Definition settled (K : list Sentence) : Prop :=
  Forall (λ s, cells s ≠ ∅) K
  ∧ ∀ s s', s ∈ K → s' ∈ K → ¬ cells s ⊂ cells s'.

(** Every cell of [X] is a cell of the [h] x [w] board. *)
Definition on_board (h w : Z) (X : gset cell) : Prop :=
  ∀ x, x ∈ X → in_bounds h w x.

(** The player only knows about cells of its board. *)
Record within_board (st : MinesweeperAI.t) : Prop := mk_within_board {
  within_moves :
    on_board (MinesweeperAI.height st) (MinesweeperAI.width st)
             (MinesweeperAI.moves_made st);
  within_mines :
    on_board (MinesweeperAI.height st) (MinesweeperAI.width st)
             (MinesweeperAI.mines st);
  within_safes :
    on_board (MinesweeperAI.height st) (MinesweeperAI.width st)
             (MinesweeperAI.safes st);
  within_knowledge :
    Forall (λ s, on_board (MinesweeperAI.height st) (MinesweeperAI.width st)
                          (cells s))
           (MinesweeperAI.knowledge st)
}.

(** The count of a sentence lies between zero and the number of its
    cells. *)
Definition well_counted (s : Sentence) : Prop :=
  0 ≤ count s ≤ len (cells s).

(** While [knowledge_update] runs on sentences that are true of the mine
    layout [M]: all sentences are true, every cell of [S] is shown safe
    and every cell of [N] is shown to be a mine by some sentence of the
    list. *)
Definition facts_kept (M S N : gset cell) (K : list Sentence) : Prop :=
  Forall (holds M) K
  ∧ S ⊆ ⋃ (Sentence.known_safes <$> K)
  ∧ N ⊆ ⋃ (Sentence.known_mines <$> K).

(** Any two sentences have disjoint cells, or the cells of one are among
    the cells of the other. *)
Definition laminar (K : list Sentence) : Prop :=
  Forall (λ s, Forall (λ s', cells s ## cells s' ∨ cells s ⊆ cells s'
                             ∨ cells s' ⊆ cells s) K) K.

(** The cells that some sentence of the list mentions. *)
Definition mentioned (K : list Sentence) : gset cell := ⋃ (cells <$> K).

(** Two cells that the sentences of [K] do not tell apart: each sentence
    holds both or neither. *)
Definition same_class (K : list Sentence) (x y : cell) : Prop :=
  ∀ s, s ∈ K → x ∈ cells s ↔ y ∈ cells s.

(** The cells of the sentence [s] are made of whole classes of [K]. *)
Definition class_closed (K : list Sentence) (s : Sentence) : Prop :=
  ∀ x y, x ∈ cells s → same_class K x y → y ∈ cells s.

(** Every cell that [K0] mentions is in a sentence of [K] whose cells are
    among the cells of every sentence of [K0] with that cell. *)
Definition class_covered (K0 K : list Sentence) : Prop :=
  ∀ x, x ∈ mentioned K0 →
    ∃ s, s ∈ K ∧ x ∈ cells s
         ∧ ∀ s0, s0 ∈ K0 → x ∈ cells s0 → cells s ⊆ cells s0.

(** The cells that the sentences of [K0] with [x] all hold. *)
Definition below (K0 : list Sentence) (x : cell) : gset cell :=
  filter (λ y, Forall (λ s0, x ∈ cells s0 → y ∈ cells s0) K0) (mentioned K0).

(** ** Example states *)

Module Examples.
Import MinesweeperAI.

(** A state with a sentence whose cells contain those of another. *)
Definition nested : MinesweeperAI.t :=
  mk 3 3 {[(0,0)]} {[(2,2)]} {[(0,0); (0,1)]}
     [mkSentence {[(1,0); (1,1)]} 1; mkSentence {[(1,0)]} 1].

Definition nested_updated : MinesweeperAI.t :=
  mk 3 3 {[(0,0)]} {[(2,2)]} {[(0,0); (0,1)]}
     [mkSentence {[(1,1)]} 0; mkSentence {[(1,0)]} 1].

(** A game on a 3 x 3 board with one mine, in the corner (2,0): the cells
    (0,0), (1,0), (0,1) and (1,1) are opened in this order. *)
Definition board : Minesweeper.t := Minesweeper.mk 3 3 {[(2,0)]}.

Definition game1 : MinesweeperAI.t :=
  mk 3 3 {[(0,0)]} ∅ {[(0,0); (0,1); (1,0); (1,1)]}
     [mkSentence {[(0,1); (1,0); (1,1)]} 0].

Definition game2 : MinesweeperAI.t :=
  mk 3 3 {[(0,0); (1,0)]} ∅ {[(0,0); (0,1); (1,0); (1,1)]}
     [mkSentence {[(0,1); (1,1)]} 0; mkSentence {[(2,0); (2,1)]} 1].

Definition game3 : MinesweeperAI.t :=
  mk 3 3 {[(0,0); (1,0); (0,1)]} ∅
     {[(0,0); (0,1); (1,0); (1,1); (0,2); (1,2)]}
     [mkSentence {[(1,1)]} 0; mkSentence {[(2,0); (2,1)]} 1;
      mkSentence {[(0,2); (1,2)]} 0].

(** The state in which the fourth [add_knowledge] calls
    [knowledge_update]: the sentence about (1,1) has lost its only cell
    and the sentence for the neighbours of (1,1) has been appended. *)
Definition game4_handed : MinesweeperAI.t :=
  mk 3 3 {[(0,0); (1,0); (0,1); (1,1)]} ∅
     {[(0,0); (0,1); (1,0); (1,1); (0,2); (1,2)]}
     [mkSentence ∅ 0; mkSentence {[(2,0); (2,1)]} 1;
      mkSentence {[(0,2); (1,2)]} 0; mkSentence {[(2,0); (2,1); (2,2)]} 1].

(** The state after that call of [knowledge_update], which is also the
    state after the fourth [add_knowledge], and the state after one more
    call of [knowledge_update]. *)
Definition game4 : MinesweeperAI.t :=
  mk 3 3 {[(0,0); (1,0); (0,1); (1,1)]} ∅
     {[(0,0); (0,1); (1,0); (1,1); (0,2); (1,2)]}
     [mkSentence {[(2,0); (2,1)]} 1; mkSentence {[(0,2); (1,2)]} 0;
      mkSentence {[(2,0); (2,1); (2,2)]} 1].

Definition game4_again : MinesweeperAI.t :=
  mk 3 3 {[(0,0); (1,0); (0,1); (1,1)]} ∅
     {[(0,0); (0,1); (1,0); (1,1); (0,2); (1,2)]}
     [mkSentence {[(2,0); (2,1)]} 1; mkSentence {[(0,2); (1,2)]} 0;
      mkSentence {[(2,2)]} 0].

(** Opening the corner of an 8 x 8 board, with no mine or with three
    mines around it. *)
Definition corner_clear : MinesweeperAI.t :=
  mk 8 8 {[(0,0)]} ∅ {[(0,0); (0,1); (1,0); (1,1)]}
     [mkSentence {[(0,1); (1,0); (1,1)]} 0].

Definition corner_mined : MinesweeperAI.t :=
  mk 8 8 {[(0,0)]} {[(0,1); (1,0); (1,1)]} {[(0,0)]}
     [mkSentence {[(0,1); (1,0); (1,1)]} 3].

(** Three sentences that are true when (0,1) is the only mine, in two
    orders, and what [knowledge_update] and the extraction loop make of
    them. *)
Definition left_pair : Sentence := mkSentence {[(0,0); (0,1)]} 1.
Definition right_pair : Sentence := mkSentence {[(0,1); (0,2)]} 1.
Definition row : Sentence := mkSentence {[(0,0); (0,1); (0,2); (0,3)]} 1.

Definition left_first : MinesweeperAI.t :=
  mk 1 4 ∅ ∅ ∅ [left_pair; right_pair; row].
Definition right_first : MinesweeperAI.t :=
  mk 1 4 ∅ ∅ ∅ [right_pair; left_pair; row].

Definition left_first_result : MinesweeperAI.t :=
  mk 1 4 ∅ ∅ {[(0,2); (0,3)]}
     [left_pair; right_pair; mkSentence {[(0,2); (0,3)]} 0].
Definition right_first_result : MinesweeperAI.t :=
  mk 1 4 ∅ ∅ {[(0,0); (0,3)]}
     [right_pair; left_pair; mkSentence {[(0,0); (0,3)]} 0].

Definition two_marks : list mark := [MarkMine (1,0); MarkSafe (2,2)].

(** A state with no known cells. *)
Definition unmarked : MinesweeperAI.t :=
  mk 3 3 ∅ ∅ ∅
     [mkSentence {[(1,0); (1,1); (2,2)]} 1; mkSentence {[(1,0); (0,1)]} 1].

End Examples.

Module MoreExamples.
Import MinesweeperAI.

(** A 3 x 3 board after the corner (0,0) has been opened with count 1,
    and after (0,1) has then been opened with count 1. *)
Definition opened_corner : MinesweeperAI.t :=
  mk 3 3 {[(0,0)]} ∅ {[(0,0)]} [mkSentence {[(0,1); (1,0); (1,1)]} 1].

Definition opened_edge : MinesweeperAI.t :=
  mk 3 3 {[(0,0); (0,1)]} ∅ {[(0,0); (0,1); (0,2); (1,2)]}
     [mkSentence {[(1,0); (1,1)]} 1; mkSentence {[(0,2); (1,2)]} 0].

End MoreExamples.

Module OrderExamples.
Import MinesweeperAI.

(** A sentence with its cells inside another's, both true when (0,0) is
    the only mine, in the two orders. *)
Definition inner : Sentence := mkSentence {[(0,0)]} 1.
Definition outer : Sentence := mkSentence {[(0,0); (0,1)]} 1.

Definition outer_first : MinesweeperAI.t := mk 1 2 ∅ ∅ ∅ [outer; inner].
Definition inner_first : MinesweeperAI.t := mk 1 2 ∅ ∅ ∅ [inner; outer].

Definition outer_first_result : MinesweeperAI.t :=
  mk 1 2 ∅ {[(0,0)]} {[(0,1)]} [mkSentence {[(0,1)]} 0; inner].
Definition inner_first_result : MinesweeperAI.t :=
  mk 1 2 ∅ {[(0,0)]} {[(0,1)]} [inner; mkSentence {[(0,1)]} 0].

(** The same two sentences with an empty sentence, first and last. *)
Definition empty_first : MinesweeperAI.t :=
  mk 1 2 ∅ ∅ ∅ [mkSentence ∅ 0; inner; outer].
Definition empty_last : MinesweeperAI.t :=
  mk 1 2 ∅ ∅ ∅ [inner; outer; mkSentence ∅ 0].

Definition empty_first_result : MinesweeperAI.t :=
  mk 1 2 ∅ {[(0,0)]} ∅ [inner; outer].
Definition empty_last_result : MinesweeperAI.t :=
  mk 1 2 ∅ {[(0,0)]} {[(0,1)]} [inner; mkSentence {[(0,1)]} 0].

(** Two sentences about the cell (0,0) that cannot both be true, before
    [outer], in the two orders. *)
Definition clear : Sentence := mkSentence {[(0,0)]} 0.

Definition clear_first : MinesweeperAI.t := mk 1 2 ∅ ∅ ∅ [clear; inner; outer].
Definition clear_second : MinesweeperAI.t := mk 1 2 ∅ ∅ ∅ [inner; clear; outer].

Definition clear_first_result : MinesweeperAI.t :=
  mk 1 2 ∅ {[(0,0); (0,1)]} {[(0,0)]} [clear; inner; mkSentence {[(0,1)]} 1].
Definition clear_second_result : MinesweeperAI.t :=
  mk 1 2 ∅ {[(0,0)]} {[(0,0); (0,1)]} [inner; clear; mkSentence {[(0,1)]} 0].

End OrderExamples.

(** ** Properties of the list iteration *)

Section for_in_facts.
Context {St A : Type}.
Variable items : St → list A.
Variable body : nat → A → St → option St.

(** A property kept by every step of the body holds when the loop ends. *)
Lemma for_in_inv (P : St → Prop) :
  (∀ idx x st st',
      items st !! idx = Some x → P st → body idx x st = Some st' → P st') →
  ∀ fuel idx st st',
    P st → for_in items body fuel idx st = Some st' → P st'.
Proof.
  intros Hstep fuel. induction fuel as [|fuel IH]; intros idx st st' HP; simpl.
  - destruct (items st !! idx); congruence.
  - destruct (items st !! idx) as [x|] eqn:Hx; [|congruence].
    destruct (body idx x st) as [st1|] eqn:Hb; simpl; [|congruence].
    apply IH. eapply Hstep; eauto.
Qed.

(** The loop ends within [fuel] steps when the body returns and never
    makes the list longer. *)
Lemma for_in_is_Some (P : St → Prop) :
  (∀ idx x st,
      items st !! idx = Some x → P st →
      ∃ st', body idx x st = Some st' ∧ P st'
             ∧ (length (items st') ≤ length (items st))%nat) →
  ∀ fuel idx st,
    P st → (length (items st) ≤ fuel + idx)%nat →
    is_Some (for_in items body fuel idx st).
Proof.
  intros Hstep fuel. induction fuel as [|fuel IH]; intros idx st HP Hlen; simpl.
  - destruct (items st !! idx) eqn:Hx; [|eauto].
    apply lookup_lt_Some in Hx. lia.
  - destruct (items st !! idx) as [x|] eqn:Hx; [|eauto].
    destruct (Hstep idx x st Hx HP) as (st1 & -> & HP1 & Hle). simpl.
    apply IH; [done|lia].
Qed.

(** A loop that has ended gives the same result with any larger bound. *)
Lemma for_in_fuel_mono fuel fuel' idx st st' :
  for_in items body fuel idx st = Some st' → (fuel ≤ fuel')%nat →
  for_in items body fuel' idx st = Some st'.
Proof.
  revert fuel' idx st. induction fuel as [|fuel IH]; intros fuel' idx st; simpl.
  - destruct (items st !! idx) eqn:Hx; [congruence|].
    intros [= <-] _. destruct fuel'; simpl; by rewrite Hx.
  - destruct (items st !! idx) as [x|] eqn:Hx.
    + destruct (body idx x st) as [st1|] eqn:Hb; simpl; [|congruence].
      intros Hrun Hle. destruct fuel' as [|fuel']; [lia|]. simpl.
      rewrite Hx, Hb. simpl. apply IH; [done|lia].
    + intros [= <-] _. destruct fuel'; simpl; by rewrite Hx.
Qed.
End for_in_facts.

(** ** Properties of [remove] *)

Lemma remove_length x l : (length (remove x l) ≤ length l)%nat.
Proof.
  induction l as [|y l IH]; simpl; [lia|]. case_bool_decide; simpl; lia.
Qed.

Lemma remove_sublist x l : remove x l `sublist_of` l.
Proof.
  induction l as [|y l IH]; simpl; [done|].
  case_bool_decide; [by apply sublist_cons|by apply sublist_skip].
Qed.

Lemma remove_Forall (P : Sentence → Prop) x l :
  Forall P l → Forall P (remove x l).
Proof.
  induction 1 as [|y l Hy Hl IH]; simpl; [constructor|].
  case_bool_decide; [done|by constructor].
Qed.

(** ** The measure of the fixpoint loop *)

Lemma total_cells_insert K n j s :
  K !! n = Some j →
  (total_cells (<[n:=s]> K) + size (cells j) = total_cells K + size (cells s))%nat.
Proof.
  revert n. induction K as [|y K IH]; intros [|n] H; simplify_eq/=; [lia|].
  specialize (IH _ H). unfold total_cells in *. lia.
Qed.

Lemma total_cells_remove x K : (total_cells (remove x K) ≤ total_cells K)%nat.
Proof.
  induction K as [|y K IH]; simpl; [done|].
  unfold total_cells in *. case_bool_decide; simpl; lia.
Qed.

Lemma len_nonzero X : len X ≠ 0 ↔ X ≠ ∅.
Proof. rewrite <- (leibniz_equiv_iff X ∅), <- size_empty_iff. unfold len. lia. Qed.

Lemma len_zero X : len X = 0 ↔ X = ∅.
Proof. rewrite <- (leibniz_equiv_iff X ∅), <- size_empty_iff. unfold len. lia. Qed.

Lemma size_strict_difference (X Y : gset cell) :
  X ≠ ∅ → X ⊂ Y → (size (Y ∖ X) < size Y)%nat.
Proof.
  intros Hne [Hsub _]. apply subset_size.
  apply set_choose_L in Hne as [x Hx]. split.
  - intros y. rewrite elem_of_difference. tauto.
  - intros HY. specialize (HY x (Hsub x Hx)).
    rewrite elem_of_difference in HY. tauto.
Qed.

(** ** One step of the nested loops *)

Module Import KnowledgeFacts.
Import MinesweeperAI.

Lemma prune_length x K : (length (prune x K) ≤ length K)%nat.
Proof. unfold prune. case_match; [apply remove_length|done]. Qed.

Lemma prune_total x K : (total_cells (prune x K) ≤ total_cells K)%nat.
Proof. unfold prune. case_match; [apply total_cells_remove|done]. Qed.

Lemma prune_Forall (P : Sentence → Prop) x K :
  Forall P K → Forall P (prune x K).
Proof. unfold prune. case_match; [apply remove_Forall|done]. Qed.

Lemma prune_nonempty x K : cells x ≠ ∅ → prune x K = K.
Proof.
  intros Hne. unfold prune. rewrite <- len_nonzero in Hne.
  rewrite (bool_decide_eq_false_2 (len (cells x) = 0)) by done.
  by rewrite andb_false_r.
Qed.

Lemma eliminate_kind i jdx j K b :
  step_kind i jdx j K b (eliminate i jdx j (K, b)).
Proof.
  unfold eliminate.
  destruct (bool_decide (len (cells i) ≠ 0)) eqn:Hi;
    [destruct (bool_decide (len (cells j) ≠ 0)) eqn:Hj|]; simpl.
  - apply bool_decide_eq_true, len_nonzero in Hi, Hj.
    case_bool_decide; [by apply step_subtract|by apply step_skip].
  - apply bool_decide_eq_false in Hj.
    apply (step_prune i jdx j K b). right. apply len_zero. lia.
  - apply bool_decide_eq_false in Hi.
    apply (step_prune i jdx j K b). left. apply len_zero. lia.
Qed.

Lemma eliminate_length i jdx j K b :
  (length (eliminate i jdx j (K, b)).1 ≤ length K)%nat.
Proof.
  destruct (eliminate_kind i jdx j K b); simpl.
  - by rewrite length_insert.
  - done.
  - etrans; apply prune_length.
Qed.

(** A step never adds cells, and a step that clears [breaker] removes
    at least one. *)
Lemma eliminate_total i jdx j K b :
  K !! jdx = Some j →
  let r := eliminate i jdx j (K, b) in
  (total_cells r.1 ≤ total_cells K)%nat
  ∧ (b = false → r.2 = false)
  ∧ (b = true → r.2 = false → (total_cells r.1 < total_cells K)%nat).
Proof.
  intros Hj. destruct (eliminate_kind i jdx j K b) as [Hi Hj' Hsub| |]; simpl.
  - pose proof (size_strict_difference _ _ Hi Hsub) as Hlt.
    pose proof (total_cells_insert K jdx j
      (mkSentence (cells j ∖ cells i) (count j - count i)) Hj) as Heq.
    simpl in Heq. split_and!; intros; lia.
  - split_and!; [lia|done|congruence].
  - split_and!; [|done|congruence].
    etrans; apply prune_total.
Qed.

(** A step keeps a property of all sentences that subtraction keeps. *)
Lemma eliminate_Forall (P : Sentence → Prop) i jdx j K b :
  (∀ s s', P s → P s' → cells s ≠ ∅ → cells s ⊂ cells s' →
           P (mkSentence (cells s' ∖ cells s) (count s' - count s))) →
  P i → K !! jdx = Some j → Forall P K →
  Forall P (eliminate i jdx j (K, b)).1.
Proof.
  intros Hsub Hi Hj HK.
  destruct (eliminate_kind i jdx j K b) as [Hne Hj' Hlt| |]; simpl.
  - apply Forall_insert; [done|]. apply Hsub; try done.
    eapply Forall_lookup_1; eauto.
  - done.
  - by do 2 apply prune_Forall.
Qed.

End KnowledgeFacts.

(** ** The loops of [knowledge_update] *)

Module Import LoopFacts.
Import MinesweeperAI.

Lemma inner_loop_inv (P : list Sentence * bool → Prop) i st st' :
  (∀ jdx j K b, K !! jdx = Some j → P (K, b) → P (eliminate i jdx j (K, b))) →
  P st → inner_loop i st = Some st' → P st'.
Proof.
  intros Hstep. unfold inner_loop. apply for_in_inv.
  intros jdx j [K b] st1 Hj HP [= <-]. by apply Hstep.
Qed.

Lemma inner_loop_is_Some i st : is_Some (inner_loop i st).
Proof.
  unfold inner_loop. apply (for_in_is_Some _ _ (λ _, True)); [|done|lia].
  intros jdx j [K b] Hj _. eexists. split_and!; [done..|].
  apply eliminate_length.
Qed.

Lemma inner_loop_length i st st' :
  inner_loop i st = Some st' → (length st'.1 ≤ length st.1)%nat.
Proof.
  apply (inner_loop_inv (λ s, (length s.1 ≤ length st.1)%nat)); [|done].
  intros jdx j K b _ Hle. etrans; [apply eliminate_length|done].
Qed.

Lemma pass_inv (P : list Sentence * bool → Prop) K st' :
  (∀ i jdx j K b,
      (∃ K0 b0 idx, P (K0, b0) ∧ K0 !! idx = Some i) →
      K !! jdx = Some j → P (K, b) → P (eliminate i jdx j (K, b))) →
  P (K, true) → pass K = Some st' → P st'.
Proof.
  intros Hstep. unfold pass. apply for_in_inv.
  intros idx i [K0 b0] st1 Hi HP. apply inner_loop_inv; [|done].
  intros jdx j K1 b1. apply Hstep. eauto.
Qed.

Lemma pass_is_Some K : is_Some (pass K).
Proof.
  unfold pass. apply (for_in_is_Some _ _ (λ _, True)); [|done|simpl; lia].
  intros idx i st _ _. destruct (inner_loop_is_Some i st) as [st' Hst'].
  exists st'. split_and!; [done..|]. by apply (inner_loop_length i).
Qed.

(** A pass never adds cells; a pass that asks for another one has removed
    a cell from some sentence. *)
Lemma pass_total K K' b :
  pass K = Some (K', b) →
  (total_cells K' ≤ total_cells K)%nat
  ∧ (b = false → (total_cells K' < total_cells K)%nat).
Proof.
  apply (pass_inv (λ s, (total_cells s.1 ≤ total_cells K)%nat
                        ∧ (s.2 = false → (total_cells s.1 < total_cells K)%nat)));
    [|simpl; split; [lia|congruence]].
  intros i jdx j K1 b1 _ Hj [Hle Hlt]. simpl in Hle, Hlt.
  destruct (eliminate_total i jdx j K1 b1 Hj) as (H1 & H2 & H3).
  split; [lia|]. intros Hb. destruct b1.
  - specialize (H3 eq_refl Hb). lia.
  - specialize (Hlt eq_refl). lia.
Qed.

Lemma knowledge_loop_is_Some fuel K :
  (total_cells K < fuel)%nat → is_Some (knowledge_loop fuel K).
Proof.
  revert K. induction fuel as [|fuel IH]; intros K Hlt; [lia|]. simpl.
  destruct (pass_is_Some K) as [[K' b] Hp]. rewrite Hp.
  destruct b; [eauto|].
  apply IH. apply pass_total in Hp as [_ Hp]. specialize (Hp eq_refl). lia.
Qed.

Lemma knowledge_loop_fuel_mono fuel fuel' K K' :
  knowledge_loop fuel K = Some K' → (fuel ≤ fuel')%nat →
  knowledge_loop fuel' K = Some K'.
Proof.
  revert fuel' K. induction fuel as [|fuel IH]; intros fuel' K; [done|].
  simpl. destruct (pass K) as [[K1 b]|] eqn:Hp; [|done].
  intros Hrun Hle. destruct fuel' as [|fuel']; [lia|]. simpl. rewrite Hp.
  destruct b; [done|]. apply IH; [done|lia].
Qed.

Lemma knowledge_loop_inv (P : list Sentence → Prop) fuel K K' :
  (∀ K K' b, P K → pass K = Some (K', b) → P K') →
  P K → knowledge_loop fuel K = Some K' → P K'.
Proof.
  intros Hpass. revert K. induction fuel as [|fuel IH]; intros K HP; [done|].
  simpl. destruct (pass K) as [[K1 b]|] eqn:Hp; [|done].
  destruct b; [intros [= <-]; eauto|]. apply IH. eauto.
Qed.

(** [knowledge_update] keeps a property of all sentences that subtraction
    keeps. *)
Lemma pass_Forall (P : Sentence → Prop) K K' b :
  (∀ s s', P s → P s' → cells s ≠ ∅ → cells s ⊂ cells s' →
           P (mkSentence (cells s' ∖ cells s) (count s' - count s))) →
  Forall P K → pass K = Some (K', b) → Forall P K'.
Proof.
  intros Hsub HK.
  apply (pass_inv (λ s, Forall P s.1)); [|done].
  intros i jdx j K1 b1 (K0 & b0 & idx & HK0 & Hi) Hj HK1.
  apply eliminate_Forall; try done. exact (Forall_lookup_1 _ _ _ _ HK0 Hi).
Qed.

Lemma knowledge_loop_Forall (P : Sentence → Prop) fuel K K' :
  (∀ s s', P s → P s' → cells s ≠ ∅ → cells s ⊂ cells s' →
           P (mkSentence (cells s' ∖ cells s) (count s' - count s))) →
  Forall P K → knowledge_loop fuel K = Some K' → Forall P K'.
Proof.
  intros Hsub. apply knowledge_loop_inv.
  intros K0 K1 b HK0 Hp. eapply pass_Forall; eauto.
Qed.

End LoopFacts.

(** * The properties *)

Import MinesweeperAI.

(** C7: [known_mines] returns the cells of the sentence when the count
    equals their number and is not zero, and the empty set otherwise;
    [known_safes] returns the cells when the count is zero (also when there
    are no cells), and the empty set otherwise. *)
Theorem known_mines_known_safes_spec (s : Sentence) :
  Sentence.known_mines s
    = (if decide (len (cells s) = count s ∧ count s ≠ 0) then cells s else ∅)
  ∧ Sentence.known_safes s
    = (if decide (count s = 0) then cells s else ∅).
Proof.
  unfold Sentence.known_mines, Sentence.known_safes. split.
  - destruct (decide _) as [[H1 H2]|H].
    + by rewrite !bool_decide_eq_true_2.
    + destruct (bool_decide (len (cells s) = count s)) eqn:E1;
        destruct (bool_decide (count s ≠ 0)) eqn:E2; simpl; try done.
      apply bool_decide_eq_true in E1, E2. tauto.
  - destruct (decide _) as [H|H].
    + by rewrite bool_decide_eq_true_2.
    + by rewrite bool_decide_eq_false_2.
Qed.

(** C4: [knowledge_update] terminates on every knowledge list.  A pass
    always ends; a pass that leaves [breaker] true leaves at most as many
    cells in the sentences, and a pass that clears it, so that the loop
    repeats, leaves strictly fewer.  One pass more than there are cells in
    the sentences is therefore enough, and any larger bound gives the same
    result. *)
Theorem knowledge_update_terminates (st : MinesweeperAI.t) :
  (∃ K' b, pass (knowledge st) = Some (K', b)
           ∧ if b then (total_cells K' ≤ total_cells (knowledge st))%nat
             else (total_cells K' < total_cells (knowledge st))%nat)
  ∧ ∃ st', ∀ extra,
      knowledge_update (S (total_cells (knowledge st) + extra)) st = Some st'.
Proof.
  split.
  - destruct (pass_is_Some (knowledge st)) as [[K' b] Hp].
    exists K', b. split; [done|].
    apply pass_total in Hp as [Hle Hlt]. destruct b; [done|by apply Hlt].
  - destruct (knowledge_loop_is_Some (S (total_cells (knowledge st)))
                (knowledge st)) as [K' HK']; [lia|].
    exists (set_knowledge K' st). intros extra. unfold knowledge_update.
    rewrite (knowledge_loop_fuel_mono _ _ _ _ HK') by lia. done.
Qed.

(** C10: [knowledge_update] changes the knowledge list only: the board
    size, the moves made, the known mines and the known safe cells are the
    same after the call. *)
Theorem knowledge_update_frame fuel (st st' : MinesweeperAI.t) :
  knowledge_update fuel st = Some st' →
  moves_made st' = moves_made st ∧ mines st' = mines st
  ∧ safes st' = safes st ∧ height st' = height st ∧ width st' = width st.
Proof.
  unfold knowledge_update. destruct (knowledge_loop fuel (knowledge st)); [|done].
  intros [= <-]. done.
Qed.

Lemma knowledge_update_frame_witness :
  moves_made Examples.nested_updated = moves_made Examples.nested
  ∧ mines Examples.nested_updated = mines Examples.nested
  ∧ safes Examples.nested_updated = safes Examples.nested
  ∧ height Examples.nested_updated = height Examples.nested
  ∧ width Examples.nested_updated = width Examples.nested.
Proof.
  apply (knowledge_update_frame 3 Examples.nested Examples.nested_updated).
  vm_compute. reflexivity.
Defined.

(** ** Marking cells *)

Lemma mark_mine_cells c s : cells (Sentence.mark_mine c s) = cells s ∖ {[c]}.
Proof.
  unfold Sentence.mark_mine. case_bool_decide; simpl; [done|].
  apply set_eq. intros x. rewrite elem_of_difference, elem_of_singleton.
  split; [|tauto]. intros Hx. split; [done|]. by intros ->.
Qed.

Lemma mark_safe_cells c s : cells (Sentence.mark_safe c s) = cells s ∖ {[c]}.
Proof.
  unfold Sentence.mark_safe. case_bool_decide; simpl; [done|].
  apply set_eq. intros x. rewrite elem_of_difference, elem_of_singleton.
  split; [|tauto]. intros Hx. split; [done|]. by intros ->.
Qed.

Lemma apply_mark_cells m st :
  Forall2 (λ s s', cells s' = cells s ∖ {[marked_cell m]})
          (knowledge st) (knowledge (apply_mark st m)).
Proof.
  destruct m as [c|c]; simpl; apply Forall2_fmap_r, Forall_Forall2_diag,
    Forall_forall; intros s _; [apply mark_mine_cells|apply mark_safe_cells].
Qed.

Lemma apply_mark_known m st :
  mines (apply_mark st m) ∪ safes (apply_mark st m)
  = {[marked_cell m]} ∪ (mines st ∪ safes st).
Proof. destruct m as [c|c]; simpl; set_solver. Qed.

Lemma apply_mark_purged m st : purged st → purged (apply_mark st m).
Proof.
  unfold purged, avoids. rewrite apply_mark_known.
  intros H. pose proof (apply_mark_cells m st) as HF.
  revert H. induction HF as [|s s' K K' Hs HK IH]; [constructor|].
  intros Hall. apply Forall_cons in Hall as [H1 H2].
  constructor; [|by apply IH]. rewrite Hs. set_solver.
Qed.

Lemma apply_mark_member m st :
  match m with
  | MarkMine c => c ∈ mines (apply_mark st m)
  | MarkSafe c => c ∈ safes (apply_mark st m)
  end
  ∧ Forall (λ s, marked_cell m ∉ cells s) (knowledge (apply_mark st m)).
Proof.
  split; [destruct m; simpl; set_solver|].
  pose proof (apply_mark_cells m st) as HF.
  induction HF as [|s s' K K' Hs HK IH]; constructor; [|done].
  rewrite Hs. set_solver.
Qed.

Lemma apply_mark_grows m st :
  mines st ⊆ mines (apply_mark st m) ∧ safes st ⊆ safes (apply_mark st m)
  ∧ ∀ c, Forall (λ s, c ∉ cells s) (knowledge st) →
         Forall (λ s, c ∉ cells s) (knowledge (apply_mark st m)).
Proof.
  split_and!; [destruct m; simpl; set_solver..|].
  intros c. pose proof (apply_mark_cells m st) as HF.
  induction HF as [|s s' K K' Hs HK IH]; [constructor|].
  intros Hall. apply Forall_cons in Hall as [H1 H2].
  constructor; [|by apply IH]. rewrite Hs. set_solver.
Qed.

(** C6: a state in which no sentence mentions a known mine or a known
    safe cell stays so under any sequence of engine-level [mark_mine] and
    [mark_safe] calls; after the sequence every marked cell is in the set
    it was marked for and in no sentence of the knowledge list. *)
Theorem marks_keep_purged (ms : list mark) (st : MinesweeperAI.t) :
  purged st →
  purged (apply_marks ms st)
  ∧ Forall (λ m, match m with
                 | MarkMine c => c ∈ mines (apply_marks ms st)
                 | MarkSafe c => c ∈ safes (apply_marks ms st)
                 end
                 ∧ Forall (λ s, marked_cell m ∉ cells s)
                          (knowledge (apply_marks ms st))) ms.
Proof.
  unfold apply_marks. revert st.
  induction ms as [|m ms IH] using rev_ind; intros st Hp; [by split|].
  rewrite foldl_app. simpl. destruct (IH st Hp) as [IH1 IH2].
  set (st1 := foldl apply_mark st ms) in *. split.
  - by apply apply_mark_purged.
  - apply Forall_app. split.
    + eapply Forall_impl; [exact IH2|]. intros m' [Hm' Hs'].
      destruct (apply_mark_grows m st1) as (Hm & Hs & Hk).
      split; [destruct m'; set_solver|by apply Hk].
    + constructor; [|constructor]. apply apply_mark_member.
Qed.

Lemma marks_keep_purged_witness :
  purged Examples.unmarked
  ∧ purged (apply_marks Examples.two_marks Examples.unmarked).
Proof.
  assert (purged Examples.unmarked) as H
    by (apply (bool_decide_unpack _); vm_compute; exact I).
  split; [exact H|].
  exact (proj1 (marks_keep_purged Examples.two_marks Examples.unmarked H)).
Defined.

(** ** Choosing a safe move *)

Lemma first_safe_Some order st c :
  first_safe order st = Some c →
  c ∈ order ∧ (c ∉ moves_made st) ∧ c ∈ safes st.
Proof.
  induction order as [|move order IH]; simpl; [done|].
  destruct (bool_decide (move ∉ moves_made st)) eqn:E1;
    [destruct (bool_decide (move ∈ safes st)) eqn:E2|]; simpl.
  - intros [= ->]. apply bool_decide_eq_true in E1, E2.
    split; [apply list_elem_of_here|done].
  - intros H. destruct (IH H) as (? & ? & ?).
    split; [by apply list_elem_of_further|done].
  - intros H. destruct (IH H) as (? & ? & ?).
    split; [by apply list_elem_of_further|done].
Qed.

Lemma first_safe_None order st c :
  first_safe order st = None → c ∈ order → c ∈ safes st → c ∈ moves_made st.
Proof.
  induction order as [|move order IH]; simpl.
  { intros _ Hc. by apply elem_of_nil in Hc. }
  intros Hn Hc Hs. apply elem_of_cons in Hc.
  destruct (bool_decide (move ∉ moves_made st)) eqn:E1;
    [destruct (bool_decide (move ∈ safes st)) eqn:E2|]; simpl in Hn; [done|..];
    (destruct Hc as [Hc|Hc]; [subst move|by apply IH]).
  - apply bool_decide_eq_false in E2. done.
  - apply bool_decide_eq_false in E1.
    destruct (decide (c ∈ moves_made st)); [done|]. by destruct E1.
Qed.

(** C9: whatever the order in which the cells of [safes] are visited,
    [make_safe_move] leaves the state as it is; a cell it returns is known
    safe and has not been played; and it returns [None] exactly when
    every known safe cell has been played. *)
Theorem make_safe_move_spec (order : list cell) (st : MinesweeperAI.t) :
  (∀ c, c ∈ order ↔ c ∈ safes st) →
  (make_safe_move order st).2 = st
  ∧ (∀ c, (make_safe_move order st).1 = Some c →
          c ∈ safes st ∧ c ∉ moves_made st)
  ∧ ((make_safe_move order st).1 = None ↔
     ¬ ∃ c, c ∈ safes st ∧ c ∉ moves_made st).
Proof.
  intros Horder. unfold make_safe_move. simpl. split_and!; [done| |].
  - intros c Hc. apply first_safe_Some in Hc. tauto.
  - split.
    + intros Hn (c & Hs & Hm). apply Hm.
      apply (first_safe_None order); [done|by apply Horder|done].
    + intros Hnone. destruct (first_safe order st) as [c|] eqn:E; [|done].
      destruct Hnone. exists c. apply first_safe_Some in E. tauto.
Qed.

Lemma make_safe_move_spec_witness :
  (make_safe_move (elements (safes Examples.nested)) Examples.nested).2
    = Examples.nested
  ∧ (make_safe_move (elements (safes Examples.nested)) Examples.nested).1
    = Some (0, 1).
Proof.
  split.
  - apply (make_safe_move_spec (elements (safes Examples.nested))
             Examples.nested).
    intros c. apply elem_of_elements.
  - vm_compute. reflexivity.
Defined.

(** ** The neighbourhood loops *)

Lemma foldl_collect {A} (g : gset cell → A → gset cell) (Q : A → cell → Prop)
    (l : list A) (acc : gset cell) (x : cell) :
  (∀ acc a y, y ∈ g acc a ↔ y ∈ acc ∨ Q a y) →
  x ∈ foldl g acc l ↔ x ∈ acc ∨ ∃ a, a ∈ l ∧ Q a x.
Proof.
  intros Hg. revert acc. induction l as [|a l IH]; intros acc; simpl.
  - split; [by left|]. intros [?|(a & Ha & _)]; [done|].
    by apply elem_of_nil in Ha.
  - rewrite IH, Hg. split.
    + intros [[?|?]|(a' & Ha' & ?)]; [by left|right..].
      * exists a. split; [apply list_elem_of_here|done].
      * exists a'. split; [by apply list_elem_of_further|done].
    + intros [?|(a' & Ha' & ?)]; [by left; left|].
      apply elem_of_cons in Ha' as [->|Ha']; [by left; right|].
      right. by exists a'.
Qed.

Lemma elem_of_range3 n i : i ∈ range3 n ↔ -1 ≤ i - n ≤ 1.
Proof.
  unfold range3. rewrite !elem_of_cons, elem_of_nil. lia.
Qed.

Lemma nearby_cells_spec st c x :
  x ∈ nearby_cells st c ↔ adjacent c x ∧ in_bounds (height st) (width st) x.
Proof.
  unfold nearby_cells.
  rewrite (foldl_collect _
    (λ i y, ∃ j, j ∈ range3 c.2
                 ∧ (0 ≤ i < height st ∧ 0 ≤ j < width st ∧ (i, j) ≠ c)
                 ∧ y = (i, j))).
  - unfold adjacent, in_bounds. split.
    + intros [Hx|(i & Hi & j & Hj & (H1 & H2 & H3) & ->)].
      { by apply not_elem_of_empty in Hx. }
      apply elem_of_range3 in Hi, Hj. simpl. tauto.
    + intros ((H1 & H2 & H3) & H4 & H5). right. destruct x as [i j].
      exists i. split; [by apply elem_of_range3|].
      exists j. split; [by apply elem_of_range3|]. done.
  - intros acc i y.
    rewrite (foldl_collect _
      (λ j y, (0 ≤ i < height st ∧ 0 ≤ j < width st ∧ (i, j) ≠ c)
              ∧ y = (i, j))).
    + naive_solver.
    + intros acc' j z.
      destruct (bool_decide (0 ≤ i < height st)) eqn:E1;
        destruct (bool_decide (0 ≤ j < width st)) eqn:E2;
        destruct (bool_decide ((i, j) ≠ c)) eqn:E3; simpl;
        try apply bool_decide_eq_true in E1;
        try apply bool_decide_eq_true in E2;
        try apply bool_decide_eq_true in E3;
        try apply bool_decide_eq_false in E1;
        try apply bool_decide_eq_false in E2;
        try apply bool_decide_eq_false in E3;
        rewrite ?elem_of_union, ?elem_of_singleton; tauto.
Qed.

Lemma nearby_cells_not_self st c : c ∉ nearby_cells st c.
Proof. rewrite nearby_cells_spec. unfold adjacent. tauto. Qed.

(** ** The extraction loop *)

Lemma extract_fold K st :
  let st' := foldl (λ st sentence,
      let st1 := mk (height st) (width st) (moves_made st) (mines st)
                    (safes st ∪ Sentence.known_safes sentence) (knowledge st) in
      mk (height st1) (width st1) (moves_made st1)
         (mines st1 ∪ Sentence.known_mines sentence) (safes st1) (knowledge st1))
      st K in
  height st' = height st ∧ width st' = width st
  ∧ moves_made st' = moves_made st ∧ knowledge st' = knowledge st
  ∧ safes st' = safes st ∪ ⋃ (Sentence.known_safes <$> K)
  ∧ mines st' = mines st ∪ ⋃ (Sentence.known_mines <$> K).
Proof.
  revert st. induction K as [|s K IH]; intros st; simpl.
  - split_and!; try done; by rewrite (right_id_L ∅ (∪)).
  - destruct (IH (mk (height st) (width st) (moves_made st)
                     (mines st ∪ Sentence.known_mines s)
                     (safes st ∪ Sentence.known_safes s) (knowledge st)))
      as (H1 & H2 & H3 & H4 & H5 & H6).
    simpl in *. split_and!; try done.
    + by rewrite H5, (assoc_L (∪)).
    + by rewrite H6, (assoc_L (∪)).
Qed.

Lemma extract_spec st :
  height (extract st) = height st ∧ width (extract st) = width st
  ∧ moves_made (extract st) = moves_made st
  ∧ knowledge (extract st) = knowledge st
  ∧ safes (extract st)
    = safes st ∪ ⋃ (Sentence.known_safes <$> knowledge st)
  ∧ mines (extract st)
    = mines st ∪ ⋃ (Sentence.known_mines <$> knowledge st).
Proof. apply extract_fold. Qed.

(** ** Ingesting an opened cell *)

Lemma len_positive X : len X > 0 ↔ X ≠ ∅.
Proof. rewrite <- len_nonzero. unfold len. lia. Qed.

Lemma add_knowledge_unfold fuel c n st st' :
  add_knowledge fuel c n st = Some st' →
  let st2 := mark_safe c (add_move c st) in
  let s := new_sentence st2 c n in
  ∃ K', st' = extract (set_knowledge K' st2)
        ∧ if decide (cells s = ∅) then K' = knowledge st2
          else knowledge_loop fuel (knowledge st2 ++ [s]) = Some K'.
Proof.
  intros H st2 s. unfold add_knowledge in H. fold st2 in H. fold s in H.
  destruct (decide (cells s = ∅)) as [He|Hne].
  - rewrite bool_decide_eq_false_2 in H by (rewrite len_positive; tauto).
    simpl in H. injection H as <-. exists (knowledge st2).
    split; [|done]. by destruct st2.
  - rewrite bool_decide_eq_true_2 in H by (by rewrite len_positive).
    unfold knowledge_update in H. simpl in H.
    destruct (knowledge_loop fuel _) as [K'|]; [|done].
    simpl in H. injection H as <-. by exists K'.
Qed.

Lemma new_sentence_opened c n st :
  new_sentence (mark_safe c (add_move c st)) c n
  = mkSentence (nearby_cells st c ∖ moves_made st ∖ mines st ∖ safes st)
               (n - len (nearby_cells st c ∩ mines st)).
Proof.
  unfold new_sentence. simpl.
  assert (nearby_cells (mark_safe c (add_move c st)) c = nearby_cells st c)
    as -> by done.
  pose proof (nearby_cells_not_self st c) as Hc. f_equal.
  apply set_eq. intros x.
  rewrite !elem_of_difference, !elem_of_union, elem_of_singleton.
  split; [tauto|]. intros (((Hx & ?) & ?) & ?).
  assert (x ≠ c) by (intros Heq; by rewrite Heq in Hx). tauto.
Qed.

(** C8: [add_knowledge] builds its sentence from the in-bounds neighbours
    of the opened cell: the cells are the neighbours that are neither
    opened nor known mines nor known safe, the count is the reported count
    less the number of neighbours that are known mines.  When that cell set
    is not empty the sentence is appended to the knowledge list (each other
    sentence having lost the opened cell) and the fixpoint loop is run on
    it; when it is empty the knowledge list gets no new sentence. *)
Theorem add_knowledge_new_sentence fuel (c : cell) (n : Z)
    (st st' : MinesweeperAI.t) :
  add_knowledge fuel c n st = Some st' →
  let nearby := nearby_cells st c in
  let s := mkSentence (nearby ∖ moves_made st ∖ mines st ∖ safes st)
                      (n - len (nearby ∩ mines st)) in
  let K1 := Sentence.mark_safe c <$> knowledge st in
  (∀ x, x ∈ nearby ↔ adjacent c x ∧ in_bounds (height st) (width st) x)
  ∧ new_sentence (mark_safe c (add_move c st)) c n = s
  ∧ if decide (cells s = ∅) then knowledge st' = K1
    else knowledge_loop fuel (K1 ++ [s]) = Some (knowledge st').
Proof.
  intros H nearby s K1. split; [apply nearby_cells_spec|].
  split; [apply new_sentence_opened|].
  apply add_knowledge_unfold in H as (K' & -> & HK').
  rewrite new_sentence_opened in HK'. fold nearby in HK'. fold s in HK'.
  destruct (extract_spec (set_knowledge K' (mark_safe c (add_move c st))))
    as (_ & _ & _ & -> & _).
  change (knowledge (mark_safe c (add_move c st))) with K1 in HK'.
  change (knowledge (set_knowledge K' (mark_safe c (add_move c st)))) with K'.
  destruct (decide (cells s = ∅)); done.
Qed.

Lemma add_knowledge_new_sentence_witness :
  add_knowledge 1 (1,0) 1 Examples.game1 = Some Examples.game2
  ∧ new_sentence (mark_safe (1,0) (add_move (1,0) Examples.game1)) (1,0) 1
    = mkSentence (nearby_cells Examples.game1 (1,0)
                  ∖ moves_made Examples.game1 ∖ mines Examples.game1
                  ∖ safes Examples.game1)
                 (1 - len (nearby_cells Examples.game1 (1,0)
                           ∩ mines Examples.game1)).
Proof.
  assert (add_knowledge 1 (1,0) 1 Examples.game1 = Some Examples.game2) as H
    by (vm_compute; reflexivity).
  split; [exact H|].
  exact (proj1 (proj2 (add_knowledge_new_sentence 1 (1,0) 1 Examples.game1
                         Examples.game2 H))).
Defined.

(** ** Sentences that are true of a mine layout *)

Section soundness.
Variable M : gset cell.

Lemma holds_subtract s s' :
  holds M s → holds M s' → cells s ≠ ∅ → cells s ⊂ cells s' →
  holds M (mkSentence (cells s' ∖ cells s) (count s' - count s)).
Proof.
  unfold holds, len. simpl. intros -> -> _ [Hsub _].
  assert ((cells s' ∖ cells s) ∩ M = (cells s' ∩ M) ∖ (cells s ∩ M)) as ->
    by set_solver.
  rewrite (size_difference (cells s' ∩ M) (cells s ∩ M)) by set_solver.
  assert (size (cells s ∩ M) ≤ size (cells s' ∩ M))%nat
    by (apply subseteq_size; set_solver).
  lia.
Qed.

Lemma holds_mark_safe c s :
  c ∉ M → holds M s → holds M (Sentence.mark_safe c s).
Proof.
  unfold holds, Sentence.mark_safe. intros Hc Hs.
  case_bool_decide; simpl; [|done].
  assert ((cells s ∖ {[c]}) ∩ M = cells s ∩ M) as -> by set_solver. done.
Qed.

Lemma holds_mark_mine c s :
  c ∈ M → holds M s → holds M (Sentence.mark_mine c s).
Proof.
  unfold holds, Sentence.mark_mine, len. intros Hc Hs.
  case_bool_decide; simpl; [|done]. rewrite Hs.
  assert (cells s ∩ M = {[c]} ∪ (cells s ∖ {[c]}) ∩ M) as ->.
  { apply set_eq. intros x.
    rewrite elem_of_union, !elem_of_intersection, elem_of_difference,
      elem_of_singleton.
    destruct (decide (x = c)) as [->|]; tauto. }
  rewrite (size_union {[c]} ((cells s ∖ {[c]}) ∩ M)) by set_solver.
  rewrite size_singleton. lia.
Qed.

Lemma known_safes_sound s : holds M s → Sentence.known_safes s ## M.
Proof.
  unfold holds, Sentence.known_safes. intros Hs.
  case_bool_decide as H0; [|set_solver].
  rewrite H0 in Hs. symmetry in Hs. apply len_zero in Hs. set_solver.
Qed.

Lemma known_mines_sound s : holds M s → Sentence.known_mines s ⊆ M.
Proof.
  unfold holds, Sentence.known_mines. intros Hs.
  destruct (bool_decide (len (cells s) = count s)) eqn:E; simpl; [|set_solver].
  case_match; [|set_solver]. apply bool_decide_eq_true in E.
  assert (cells s ∩ M = cells s) as <-; [|set_solver].
  apply set_subseteq_size_eq; [set_solver|]. unfold len in *. lia.
Qed.

Lemma union_known_safes_sound K :
  Forall (holds M) K → ⋃ (Sentence.known_safes <$> K) ## M.
Proof.
  induction 1 as [|s K Hs _ IH]; simpl; [set_solver|].
  pose proof (known_safes_sound s Hs). set_solver.
Qed.

Lemma union_known_mines_sound K :
  Forall (holds M) K → ⋃ (Sentence.known_mines <$> K) ⊆ M.
Proof.
  induction 1 as [|s K Hs _ IH]; simpl; [set_solver|].
  pose proof (known_mines_sound s Hs). set_solver.
Qed.

Lemma knowledge_loop_holds fuel K K' :
  Forall (holds M) K → knowledge_loop fuel K = Some K' → Forall (holds M) K'.
Proof. apply knowledge_loop_Forall, holds_subtract. Qed.

End soundness.

(** ** Counting the mines around a cell *)

Lemma NoDup_block c : NoDup (block c).
Proof.
  unfold block.
  repeat (apply NoDup_cons; split;
    [rewrite ?elem_of_cons, elem_of_nil; intros H;
     repeat (destruct H as [H|H]; [injection H; lia|]); done|]).
  apply NoDup_nil_2.
Qed.

Lemma foldl_pairs {A} (f : A → cell → A) (l1 l2 : list Z) (a : A) :
  foldl (λ a i, foldl (λ a j, f a (i, j)) a l2) a l1
  = foldl f a (i ← l1; (λ j, (i, j)) <$> l2).
Proof.
  revert a. induction l1 as [|i l1 IH]; intros a; simpl; [done|].
  by rewrite foldl_app, foldl_fmap, IH.
Qed.

Lemma block_pairs c :
  block c = (i ← range3 c.1; (λ j, (i, j)) <$> range3 c.2).
Proof. reflexivity. Qed.

Lemma nearby_cells_block st c :
  nearby_cells st c
  = foldl (λ acc p,
      if bool_decide (0 ≤ p.1 < height st) && bool_decide (0 ≤ p.2 < width st)
         && bool_decide (p ≠ c)
      then {[p]} ∪ acc else acc) ∅ (block c).
Proof.
  rewrite block_pairs.
  exact (foldl_pairs (λ acc p,
      if bool_decide (0 ≤ p.1 < height st) && bool_decide (0 ≤ p.2 < width st)
         && bool_decide (p ≠ c)
      then {[p]} ∪ acc else acc) (range3 c.1) (range3 c.2) ∅).
Qed.

Lemma nearby_mines_block g c :
  Minesweeper.nearby_mines g c
  = foldl (λ count p,
      if bool_decide (p = c) then count
      else if bool_decide (0 ≤ p.1 < Minesweeper.height g)
              && bool_decide (0 ≤ p.2 < Minesweeper.width g)
           then (if bool_decide (p ∈ Minesweeper.mines g) then count + 1
                 else count)
           else count) 0 (block c).
Proof.
  rewrite block_pairs.
  exact (foldl_pairs (λ count p,
      if bool_decide (p = c) then count
      else if bool_decide (0 ≤ p.1 < Minesweeper.height g)
              && bool_decide (0 ≤ p.2 < Minesweeper.width g)
           then (if bool_decide (p ∈ Minesweeper.mines g) then count + 1
                 else count)
           else count) (range3 c.1) (range3 c.2) 0).
Qed.

Lemma len_union_fresh (p : cell) (X M : gset cell) :
  p ∉ X →
  len (({[p]} ∪ X) ∩ M) = (if bool_decide (p ∈ M) then 1 else 0) + len (X ∩ M).
Proof.
  intros Hp. unfold len. case_bool_decide.
  - assert (({[p]} ∪ X) ∩ M = {[p]} ∪ X ∩ M) as -> by set_solver.
    rewrite (size_union {[p]} (X ∩ M)) by set_solver.
    rewrite size_singleton. lia.
  - assert (({[p]} ∪ X) ∩ M = X ∩ M) as -> by set_solver. lia.
Qed.

Lemma count_block (h w : Z) (M : gset cell) (c : cell) (l : list cell) :
  NoDup l → ∀ (acc : gset cell) (k : Z),
  (∀ p, p ∈ l → p ∉ acc) → k = len (acc ∩ M) →
  foldl (λ count p,
      if bool_decide (p = c) then count
      else if bool_decide (0 ≤ p.1 < h) && bool_decide (0 ≤ p.2 < w)
           then (if bool_decide (p ∈ M) then count + 1 else count)
           else count) k l
  = len (foldl (λ acc p,
      if bool_decide (0 ≤ p.1 < h) && bool_decide (0 ≤ p.2 < w)
         && bool_decide (p ≠ c)
      then {[p]} ∪ acc else acc) acc l ∩ M).
Proof.
  induction 1 as [|p l Hp Hl IH]; intros acc k Hfresh Hk; simpl; [done|].
  apply IH.
  - intros q Hq. case_match.
    + rewrite elem_of_union, elem_of_singleton. intros [->|Hacc]; [done|].
      exact (Hfresh q (list_elem_of_further _ _ _ Hq) Hacc).
    + exact (Hfresh q (list_elem_of_further _ _ _ Hq)).
  - destruct (bool_decide (p = c)) eqn:E.
    + apply bool_decide_eq_true in E.
      rewrite (bool_decide_eq_false_2 (p ≠ c)) by tauto.
      by rewrite andb_false_r.
    + apply bool_decide_eq_false in E.
      rewrite (bool_decide_eq_true_2 (p ≠ c)) by done. rewrite andb_true_r.
      case_match; [|done].
      rewrite len_union_fresh by apply Hfresh, list_elem_of_here.
      repeat case_bool_decide; (lia || tauto).
Qed.

Lemma nearby_mines_spec g st c :
  height st = Minesweeper.height g → width st = Minesweeper.width g →
  Minesweeper.nearby_mines g c = len (nearby_cells st c ∩ Minesweeper.mines g).
Proof.
  intros Hh Hw. rewrite nearby_mines_block, nearby_cells_block, Hh, Hw.
  apply count_block; [apply NoDup_block|set_solver|].
  assert ((∅ : gset cell) ∩ Minesweeper.mines g = ∅) as -> by set_solver.
  done.
Qed.

(** ** What the player knows is true of the board *)

Section board.
Variable g : Minesweeper.t.

Lemma is_mine_true c : Minesweeper.is_mine g c = true ↔ c ∈ Minesweeper.mines g.
Proof. unfold Minesweeper.is_mine. apply bool_decide_eq_true. Qed.

Lemma is_mine_false c : Minesweeper.is_mine g c = false ↔ c ∉ Minesweeper.mines g.
Proof. unfold Minesweeper.is_mine. apply bool_decide_eq_false. Qed.

Lemma sound_init :
  sound g (init (Minesweeper.height g) (Minesweeper.width g)).
Proof. split; simpl; try done; try set_solver. Qed.

Lemma sound_mark_mine st c :
  c ∈ Minesweeper.mines g → sound g st → sound g (mark_mine c st).
Proof.
  intros Hc [H1 H2 H3 H4 H5 H6]. split; simpl; try done; [set_solver|].
  apply Forall_fmap. eapply Forall_impl; [exact H6|].
  intros s. by apply holds_mark_mine.
Qed.

Lemma sound_mark_safe st c :
  c ∉ Minesweeper.mines g → sound g st → sound g (mark_safe c st).
Proof.
  intros Hc [H1 H2 H3 H4 H5 H6]. split; simpl; try done; [set_solver|].
  apply Forall_fmap. eapply Forall_impl; [exact H6|].
  intros s. by apply holds_mark_safe.
Qed.

Lemma sound_add_move st c :
  c ∉ Minesweeper.mines g → sound g st → sound g (add_move c st).
Proof.
  intros Hc [H1 H2 H3 H4 H5 H6]. split; simpl; try done. set_solver.
Qed.

Lemma sound_new_sentence st c :
  sound g st →
  holds (Minesweeper.mines g)
        (new_sentence st c (Minesweeper.nearby_mines g c)).
Proof.
  intros [H1 H2 H3 H4 H5 H6]. unfold holds, new_sentence. simpl.
  rewrite (nearby_mines_spec g st c H1 H2).
  set (N := nearby_cells st c). set (M := Minesweeper.mines g) in *.
  assert ((N ∖ moves_made st ∖ mines st ∖ safes st) ∩ M
          = (N ∩ M) ∖ (N ∩ mines st)) as -> by set_solver.
  unfold len. rewrite (size_difference (N ∩ M) (N ∩ mines st)) by set_solver.
  assert (size (N ∩ mines st) ≤ size (N ∩ M))%nat
    by (apply subseteq_size; set_solver).
  lia.
Qed.

Lemma sound_extract st : sound g st → sound g (extract st).
Proof.
  intros [H1 H2 H3 H4 H5 H6].
  destruct (extract_spec st) as (E1 & E2 & E3 & E4 & E5 & E6).
  pose proof (union_known_safes_sound _ _ H6).
  pose proof (union_known_mines_sound _ _ H6).
  split; rewrite ?E1, ?E2, ?E3, ?E4, ?E5, ?E6; try done; set_solver.
Qed.

Lemma sound_set_knowledge st K :
  sound g st → Forall (holds (Minesweeper.mines g)) K →
  sound g (set_knowledge K st).
Proof. intros [H1 H2 H3 H4 H5 H6] HK. by split. Qed.

Lemma sound_add_knowledge fuel st st' c :
  c ∉ Minesweeper.mines g → sound g st →
  add_knowledge fuel c (Minesweeper.nearby_mines g c) st = Some st' →
  sound g st'.
Proof.
  intros Hc Hst Hrun.
  assert (sound g (mark_safe c (add_move c st))) as H2
    by (by apply sound_mark_safe, sound_add_move).
  pose proof (sound_new_sentence _ c H2) as Hs.
  apply add_knowledge_unfold in Hrun as (K' & -> & HK').
  apply sound_extract, sound_set_knowledge; [done|].
  destruct (decide _); [subst K'; apply H2|].
  eapply knowledge_loop_holds; [|exact HK'].
  apply Forall_app. split; [apply H2|]. by constructor.
Qed.

Lemma reachable_sound st : reachable g st → sound g st.
Proof.
  induction 1 as [|st st' fuel c _ IH _ Hc Hrun|st c _ IH _ Hc|st c _ IH _ Hc].
  - apply sound_init.
  - apply is_mine_false in Hc. by eapply sound_add_knowledge.
  - apply is_mine_true in Hc. by apply sound_mark_mine.
  - apply is_mine_false in Hc. by apply sound_mark_safe.
Qed.

End board.

(** C5: in every state reached from the initial one by [add_knowledge],
    [mark_mine] and [mark_safe] calls that report what a board holds, no
    cell is both a known mine and a known safe cell. *)
Theorem mines_safes_disjoint (g : Minesweeper.t) (st : MinesweeperAI.t) :
  reachable g st → mines st ∩ safes st = ∅.
Proof.
  intros [H1 H2 H3 H4 H5 H6]%reachable_sound. set_solver.
Qed.

Lemma game3_reachable : reachable Examples.board Examples.game3.
Proof.
  apply (reach_add_knowledge _ Examples.game2 _ 1 (0,1));
    [|unfold in_bounds; simpl; lia|reflexivity|vm_compute; reflexivity].
  apply (reach_add_knowledge _ Examples.game1 _ 1 (1,0));
    [|unfold in_bounds; simpl; lia|reflexivity|vm_compute; reflexivity].
  apply (reach_add_knowledge _ (init 3 3) _ 1 (0,0));
    [|unfold in_bounds; simpl; lia|reflexivity|vm_compute; reflexivity].
  apply (reach_init Examples.board).
Defined.

Lemma game4_reachable : reachable Examples.board Examples.game4.
Proof.
  apply (reach_add_knowledge _ Examples.game3 _ 1 (1,1));
    [apply game3_reachable|unfold in_bounds; simpl; lia|reflexivity
    |vm_compute; reflexivity].
Defined.

Lemma mines_safes_disjoint_witness :
  reachable Examples.board (mark_mine (2,0) Examples.game4)
  ∧ mines (mark_mine (2,0) Examples.game4)
    ∩ safes (mark_mine (2,0) Examples.game4) = ∅.
Proof.
  assert (reachable Examples.board (mark_mine (2,0) Examples.game4)) as H.
  { apply reach_mark_mine;
      [apply game4_reachable|unfold in_bounds; simpl; lia|reflexivity]. }
  split; [exact H|].
  exact (mines_safes_disjoint Examples.board _ H).
Defined.

(** ** Known cells and the sentences after [add_knowledge] *)

Lemma avoids_subtract X s s' :
  cells s ## X → cells s' ## X → cells s ≠ ∅ → cells s ⊂ cells s' →
  cells (mkSentence (cells s' ∖ cells s) (count s' - count s)) ## X.
Proof. simpl. set_solver. Qed.

Lemma knowledge_loop_avoids X fuel K K' :
  avoids X K → knowledge_loop fuel K = Some K' → avoids X K'.
Proof. apply (knowledge_loop_Forall (λ s, cells s ## X)), avoids_subtract. Qed.

Lemma mark_safe_avoids c X K :
  avoids X K → avoids ({[c]} ∪ X) (Sentence.mark_safe c <$> K).
Proof.
  unfold avoids. intros H. apply Forall_fmap.
  eapply Forall_impl; [exact H|]. intros s Hs. simpl.
  rewrite mark_safe_cells. set_solver.
Qed.

Lemma known_subseteq_union K :
  Forall (λ s, Sentence.known_safes s ⊆ ⋃ (Sentence.known_safes <$> K)
               ∧ Sentence.known_mines s ⊆ ⋃ (Sentence.known_mines <$> K)) K.
Proof.
  apply Forall_forall. intros s Hs. split; intros x Hx;
    apply elem_of_union_list; eexists; (split; [|exact Hx]);
    apply list_elem_of_fmap; by exists s.
Qed.

(** C1, as the code has it: after [add_knowledge], started in a state
    where no sentence mentions a known mine, a known safe cell or an opened
    cell, no sentence mentions an opened cell, the cell just opened, or a
    cell that was a known mine or known safe before the call.  The known
    mines and known safe cells after the call are those known before, the
    opened cell, and the cells the sentences left by the fixpoint loop
    show to be mines or to be safe: these are the only known cells a
    sentence can still mention, for the extraction loop adds them to the
    two sets and takes them out of no sentence. *)
Theorem add_knowledge_resolved fuel (c : cell) (n : Z)
    (st st' : MinesweeperAI.t) :
  resolved_free st →
  add_knowledge fuel c n st = Some st' →
  avoids (mines st ∪ safes st ∪ {[c]} ∪ moves_made st') (knowledge st')
  ∧ mines st' = mines st ∪ ⋃ (Sentence.known_mines <$> knowledge st')
  ∧ safes st'
    = {[c]} ∪ safes st ∪ ⋃ (Sentence.known_safes <$> knowledge st')
  ∧ Forall (λ s, cells s ∩ (mines st' ∪ safes st' ∪ moves_made st')
                 ⊆ ⋃ (Sentence.known_mines <$> knowledge st')
                   ∪ ⋃ (Sentence.known_safes <$> knowledge st'))
           (knowledge st').
Proof.
  intros Hfree Hrun. apply add_knowledge_unfold in Hrun as (K' & -> & HK').
  set (st2 := mark_safe c (add_move c st)) in *.
  destruct (extract_spec (set_knowledge K' st2)) as (_ & _ & -> & -> & -> & ->).
  change (knowledge (set_knowledge K' st2)) with K'.
  change (moves_made (set_knowledge K' st2)) with ({[c]} ∪ moves_made st).
  change (mines (set_knowledge K' st2)) with (mines st).
  change (safes (set_knowledge K' st2)) with ({[c]} ∪ safes st).
  assert (avoids (mines st ∪ safes st ∪ {[c]} ∪ ({[c]} ∪ moves_made st)) K')
    as Hav.
  { assert (avoids ({[c]} ∪ (mines st ∪ safes st ∪ moves_made st))
              (knowledge st2)) as H2 by (by apply mark_safe_avoids).
    assert (avoids (mines st ∪ safes st ∪ {[c]} ∪ ({[c]} ∪ moves_made st))
              (knowledge st2)) as H3.
    { eapply Forall_impl; [exact H2|]. intros s Hs. simpl in *. set_solver. }
    destruct (decide _); [by subst K'|].
    eapply knowledge_loop_avoids; [|exact HK'].
    apply Forall_app. split; [done|]. constructor; [|constructor].
    simpl. set_solver. }
  split_and!; [done..|].
  eapply Forall_impl; [exact Hav|]. intros s Hs. simpl in Hs.
  intros x [Hx Hk]%elem_of_intersection. set_solver.
Qed.

Lemma add_knowledge_resolved_witness :
  resolved_free MoreExamples.opened_corner
  ∧ avoids (mines MoreExamples.opened_corner ∪ safes MoreExamples.opened_corner
            ∪ {[(0,1)]} ∪ moves_made MoreExamples.opened_edge)
           (knowledge MoreExamples.opened_edge).
Proof.
  assert (resolved_free MoreExamples.opened_corner) as H
    by (apply (bool_decide_unpack _); vm_compute; exact I).
  split; [exact H|].
  apply (add_knowledge_resolved 2 (0,1) 1 MoreExamples.opened_corner
           MoreExamples.opened_edge H).
  vm_compute. reflexivity.
Defined.

(** C1, as it is stated, fails: opening the corner of an empty 8 x 8
    board with count 0 leaves a sentence whose cells are all in [safes],
    and with count 3 a sentence whose cells are all in [mines]. *)
Lemma add_knowledge_keeps_known_cells :
  resolved_free (init 8 8)
  ∧ add_knowledge 1 (0,0) 0 (init 8 8) = Some Examples.corner_clear
  ∧ ¬ resolved_free Examples.corner_clear
  ∧ add_knowledge 1 (0,0) 3 (init 8 8) = Some Examples.corner_mined
  ∧ ¬ resolved_free Examples.corner_mined.
Proof.
  split_and!.
  - constructor.
  - vm_compute. reflexivity.
  - apply (bool_decide_eq_false_1 (resolved_free Examples.corner_clear)).
    vm_compute. reflexivity.
  - vm_compute. reflexivity.
  - apply (bool_decide_eq_false_1 (resolved_free Examples.corner_mined)).
    vm_compute. reflexivity.
Qed.

(** C2 on the code: in the game of [Examples], the fourth [add_knowledge]
    hands [game4_handed] to [knowledge_update].  The call removes the empty
    sentence and returns with a sentence about (2,0) and (2,1) next to a
    sentence about (2,0), (2,1) and (2,2); a second call, with nothing
    added in between, subtracts the one from the other. *)
Theorem knowledge_update_twice :
  knowledge_update 1 Examples.game4_handed = Some Examples.game4
  ∧ knowledge_update 2 Examples.game4 = Some Examples.game4_again
  ∧ knowledge Examples.game4_again ≠ knowledge Examples.game4.
Proof.
  split_and!; [vm_compute; reflexivity..|].
  apply (bool_decide_eq_false_1 _). vm_compute. reflexivity.
Qed.

(** The state handed to [knowledge_update] in that game. *)
Lemma game4_handed_spec :
  reachable Examples.board Examples.game3
  ∧ set_knowledge
      (knowledge (mark_safe (1,1) (add_move (1,1) Examples.game3))
       ++ [new_sentence (mark_safe (1,1) (add_move (1,1) Examples.game3))
                        (1,1) (Minesweeper.nearby_mines Examples.board (1,1))])
      (mark_safe (1,1) (add_move (1,1) Examples.game3))
    = Examples.game4_handed.
Proof. split; [apply game3_reachable|vm_compute; reflexivity]. Qed.

(** C3, as it is stated, fails: the same three sentences in two orders
    give different sets of known safe cells. *)
Lemma extraction_depends_on_order :
  knowledge Examples.left_first ≡ₚ knowledge Examples.right_first
  ∧ update_and_extract 2 Examples.left_first = Some Examples.left_first_result
  ∧ update_and_extract 2 Examples.right_first = Some Examples.right_first_result
  ∧ safes Examples.left_first_result ≠ safes Examples.right_first_result.
Proof.
  split_and!.
  - apply perm_swap.
  - vm_compute. reflexivity.
  - vm_compute. reflexivity.
  - apply (bool_decide_eq_false_1 _). vm_compute. reflexivity.
Qed.

(** ** Knowledge lists on which the loop has nothing to do *)

Lemma settled_step K i jdx j b :
  settled K → i ∈ K → K !! jdx = Some j →
  eliminate i jdx j (K, b) = (K, b).
Proof.
  intros [Hne Hsub] Hi Hj.
  assert (j ∈ K) as Hj' by (apply list_elem_of_lookup; eauto).
  assert (cells i ≠ ∅ ∧ cells j ≠ ∅) as [Hi0 Hj0].
  { rewrite Forall_forall in Hne. split; by apply Hne. }
  destruct (eliminate_kind i jdx j K b) as [_ _ Hlt| |[?|?]]; try done.
  by destruct (Hsub i j).
Qed.

Lemma pass_settled K : settled K → pass K = Some (K, true).
Proof.
  intros HK. destruct (pass_is_Some K) as [st' Hp]. rewrite Hp. f_equal.
  revert Hp. apply (pass_inv (λ s, s = (K, true))); [|done].
  intros i jdx j K1 b1 (K0 & b0 & idx & [= -> ->] & Hi) Hj [= -> ->].
  apply settled_step; [done| |done]. apply list_elem_of_lookup. eauto.
Qed.

Lemma knowledge_loop_settled fuel K :
  settled K → knowledge_loop (S fuel) K = Some K.
Proof. intros HK. simpl. by rewrite pass_settled. Qed.

Lemma settled_Permutation K1 K2 : K1 ≡ₚ K2 → settled K1 → settled K2.
Proof.
  intros Hp [Hne Hsub]. split.
  - by rewrite <- Hp.
  - intros s s' Hs Hs'. apply Hsub; by rewrite Hp.
Qed.

(** ** A second run when no sentence is empty

    [knowledge_update] removes nothing from a list without empty sentences,
    so that its loops visit every pair of sentences; the pass that leaves
    [breaker] true has then found nothing to subtract. *)

Arguments MinesweeperAI.eliminate : simpl never.

Lemma eliminate_breaker i jdx j K :
  (eliminate i jdx j (K, false)).2 = false.
Proof. by destruct (eliminate_kind i jdx j K false). Qed.

Lemma inner_rest_breaker i fuel jdx K st' :
  for_in fst (λ jdx j st, Some (eliminate i jdx j st)) fuel jdx (K, false)
    = Some st' →
  st'.2 = false.
Proof.
  apply (for_in_inv _ _ (λ s, s.2 = false)); [|done].
  intros k j [K1 b1] st1 _ Hb [= <-]. simpl in Hb. subst b1.
  apply eliminate_breaker.
Qed.

Lemma outer_rest_breaker fuel idx K st' :
  for_in fst (λ _ i st, inner_loop i st) fuel idx (K, false) = Some st' →
  st'.2 = false.
Proof.
  apply (for_in_inv _ _ (λ s, s.2 = false)); [|done].
  intros k i [K1 b1] st1 _ Hb. simpl in Hb. subst b1.
  apply inner_rest_breaker.
Qed.

Lemma inner_quiet i fuel jdx K b K' :
  Forall (λ s, cells s ≠ ∅) K → cells i ≠ ∅ →
  for_in fst (λ jdx j st, Some (eliminate i jdx j st)) fuel jdx (K, b)
    = Some (K', true) →
  K' = K ∧ b = true
  ∧ ∀ k j, (jdx ≤ k)%nat → K !! k = Some j → ¬ cells i ⊂ cells j.
Proof.
  intros HK Hi. revert jdx b.
  induction fuel as [|fuel IH]; intros jdx b; simpl;
    destruct (K !! jdx) as [j|] eqn:Hj; try done.
  - intros [= <- <-]. split_and!; [done..|]. intros k j' Hk Hj'.
    apply lookup_ge_None in Hj. apply lookup_lt_Some in Hj'. lia.
  - destruct (eliminate_kind i jdx j K b) as [_ _ _|_ _ Hn|[H0|H0]].
    + intros H. by apply inner_rest_breaker in H.
    + intros H. destruct (IH _ _ H) as (-> & -> & Hall).
      split_and!; [done..|]. intros k j' Hk Hj'.
      destruct (decide (k = jdx)) as [->|]; [by simplify_eq|].
      apply (Hall k); [lia|done].
    + done.
    + by destruct (Forall_lookup_1 _ _ _ _ HK Hj).
  - intros [= <- <-]. split_and!; [done..|]. intros k j' Hk Hj'.
    apply lookup_ge_None in Hj. apply lookup_lt_Some in Hj'. lia.
Qed.

Lemma outer_quiet fuel idx K b K' :
  Forall (λ s, cells s ≠ ∅) K →
  for_in fst (λ _ i st, inner_loop i st) fuel idx (K, b) = Some (K', true) →
  K' = K ∧ b = true
  ∧ ∀ k i j, (idx ≤ k)%nat → K !! k = Some i → j ∈ K → ¬ cells i ⊂ cells j.
Proof.
  intros HK. revert idx b.
  induction fuel as [|fuel IH]; intros idx b; simpl;
    destruct (K !! idx) as [i|] eqn:Hi; try done.
  - intros [= <- <-]. split_and!; [done..|]. intros k i' j Hk Hi'.
    apply lookup_ge_None in Hi. apply lookup_lt_Some in Hi'. lia.
  - destruct (inner_loop i (K, b)) as [[K1 b1]|] eqn:Hin; simpl; [|done].
    intros Hrest. destruct b1; [|by apply outer_rest_breaker in Hrest].
    apply inner_quiet in Hin as (-> & -> & Hrow);
      [|done|exact (Forall_lookup_1 _ _ _ _ HK Hi)].
    destruct (IH _ _ Hrest) as (-> & _ & Hall). split_and!; [done..|].
    intros k i' j Hk Hi' Hj.
    destruct (decide (k = idx)) as [->|].
    + simplify_eq. apply list_elem_of_lookup in Hj as [kj Hj].
      apply (Hrow kj); [lia|done].
    + apply (Hall k); [lia|done..].
  - intros [= <- <-]. split_and!; [done..|]. intros k i' j Hk Hi'.
    apply lookup_ge_None in Hi. apply lookup_lt_Some in Hi'. lia.
Qed.

Lemma pass_quiet K K' :
  Forall (λ s, cells s ≠ ∅) K → pass K = Some (K', true) →
  K' = K ∧ settled K.
Proof.
  intros HK Hp. apply outer_quiet in Hp as (-> & _ & Hall); [|done].
  split; [done|]. split; [done|]. intros s s' Hs Hs'.
  apply list_elem_of_lookup in Hs as [k Hs]. apply (Hall k); [lia|done..].
Qed.

Lemma nonempty_subtract s s' :
  cells s ≠ ∅ → cells s' ≠ ∅ → cells s ≠ ∅ → cells s ⊂ cells s' →
  cells (mkSentence (cells s' ∖ cells s) (count s' - count s)) ≠ ∅.
Proof.
  intros _ _ _ [Hsub Hn]. simpl. intros He. apply Hn. intros x Hx.
  destruct (decide (x ∈ cells s)); [done|].
  assert (x ∈ cells s' ∖ cells s) as Hd by (by apply elem_of_difference).
  rewrite He in Hd. by apply not_elem_of_empty in Hd.
Qed.

Lemma knowledge_loop_reaches_settled fuel K K' :
  Forall (λ s, cells s ≠ ∅) K → knowledge_loop fuel K = Some K' → settled K'.
Proof.
  revert K. induction fuel as [|fuel IH]; intros K HK; [done|]. simpl.
  destruct (pass K) as [[K1 b]|] eqn:Hp; [|done]. destruct b.
  - intros [= <-]. by destruct (pass_quiet _ _ HK Hp) as [-> ?].
  - apply IH. eapply (pass_Forall (λ s, cells s ≠ ∅)); [|done..].
    apply nonempty_subtract.
Qed.

(** When the knowledge list holds no empty sentence, a second run of
    [knowledge_update] changes nothing. *)
Lemma knowledge_update_again_without_empty fuel fuel' st st' :
  Forall (λ s, cells s ≠ ∅) (knowledge st) →
  knowledge_update fuel st = Some st' →
  knowledge_update (S fuel') st' = Some st'.
Proof.
  unfold knowledge_update. intros HK.
  destruct (knowledge_loop fuel (knowledge st)) as [K'|] eqn:Hrun; [|done].
  intros [= <-]. simpl knowledge.
  rewrite knowledge_loop_settled
    by (by eapply knowledge_loop_reaches_settled).
  done.
Qed.

(** * Further properties of the code *)

(** ** The neighbourhood of a cell *)

Lemma elem_of_block c x :
  x ∈ block c ↔ -1 ≤ x.1 - c.1 ≤ 1 ∧ -1 ≤ x.2 - c.2 ≤ 1.
Proof.
  rewrite block_pairs, list_elem_of_bind. split.
  - intros (i & Hx & Hi). apply list_elem_of_fmap in Hx as (j & -> & Hj).
    apply elem_of_range3 in Hi, Hj. done.
  - intros [H1 H2]. destruct x as [i j]. exists i.
    split; [|by apply elem_of_range3].
    apply list_elem_of_fmap. exists j. split; [done|by apply elem_of_range3].
Qed.

Lemma nearby_cells_size st c : (size (nearby_cells st c) ≤ 8)%nat.
Proof.
  assert (nearby_cells st c ⊆ list_to_set (block c) ∖ {[c]}) as Hsub.
  { intros x Hx. apply nearby_cells_spec in Hx as [(H1 & H2 & H3) _].
    apply elem_of_difference. split.
    - apply elem_of_list_to_set, elem_of_block. done.
    - by rewrite elem_of_singleton. }
  apply subseteq_size in Hsub.
  rewrite (size_difference (list_to_set (block c)) {[c]}) in Hsub.
  - rewrite size_list_to_set in Hsub by apply NoDup_block.
    rewrite size_singleton in Hsub. simpl in Hsub. lia.
  - intros x ->%elem_of_singleton.
    apply elem_of_list_to_set, elem_of_block. lia.
Qed.

(** X1: the neighbourhood [add_knowledge] collects never holds the opened
    cell, holds cells of the board only and at most eight of them, and is
    symmetric between cells of the board. *)
Theorem nearby_cells_neighbourhood (st : MinesweeperAI.t) (c : cell) :
(c ∉ nearby_cells st c)
  ∧ on_board (height st) (width st) (nearby_cells st c)
  ∧ (size (nearby_cells st c) ≤ 8)%nat
  ∧ ∀ x, in_bounds (height st) (width st) c →
         x ∈ nearby_cells st c → c ∈ nearby_cells st x.
Proof.
  split_and!.
  - apply nearby_cells_not_self.
  - intros x Hx. by apply nearby_cells_spec in Hx as [_ ?].
  - apply nearby_cells_size.
  - intros x Hc Hx. apply nearby_cells_spec in Hx as [(H1 & H2 & H3) Hb].
    apply nearby_cells_spec. split; [|done].
    unfold adjacent. split_and!; [lia..|congruence].
Qed.

(** X2: [nearby_mines] is the number of mines among the cells of the
    board next to the given cell, the cell itself left out, and lies
    between 0 and 8. *)
Theorem nearby_mines_count (g : Minesweeper.t) (c : cell) :
  Minesweeper.nearby_mines g c
  = len (nearby_cells (init (Minesweeper.height g) (Minesweeper.width g)) c
         ∩ Minesweeper.mines g)
  ∧ 0 ≤ Minesweeper.nearby_mines g c ≤ 8.
Proof.
  pose proof (nearby_mines_spec g
    (init (Minesweeper.height g) (Minesweeper.width g)) c eq_refl eq_refl) as H.
  split; [exact H|]. rewrite H. unfold len.
  pose proof (nearby_cells_size
    (init (Minesweeper.height g) (Minesweeper.width g)) c) as H8.
  assert (size (nearby_cells (init (Minesweeper.height g) (Minesweeper.width g)) c
                ∩ Minesweeper.mines g)
          ≤ size (nearby_cells (init (Minesweeper.height g) (Minesweeper.width g)) c))%nat
    by (apply subseteq_size; set_solver).
  lia.
Qed.

(** ** Choosing a random move *)

Lemma foldl_snoc_filter (P : cell → bool) (l acc : list cell) :
  foldl (λ acc p, if P p then acc ++ [p] else acc) acc l
  = acc ++ filter (λ p, P p = true) l.
Proof.
  revert acc. induction l as [|p l IH]; intros acc; simpl.
  - by rewrite app_nil_r.
  - rewrite IH. destruct (P p) eqn:E.
    + rewrite filter_cons_True by done. by rewrite <- app_assoc.
    + rewrite filter_cons_False by congruence. done.
Qed.

(** The cells of the board, row by row. *)
Lemma potential_moves_filter st :
  potential_moves st
  = filter (λ p, bool_decide (p ∉ moves_made st) && bool_decide (p ∉ mines st)
                 = true)
           (i ← range (height st); (λ j, (i, j)) <$> range (width st)).
Proof.
  unfold potential_moves.
  rewrite (foldl_pairs (λ acc p,
    if bool_decide (p ∉ moves_made st) && bool_decide (p ∉ mines st)
    then acc ++ [p] else acc)).
  by rewrite foldl_snoc_filter.
Qed.

Lemma elem_of_grid h w x :
  x ∈ (i ← range h; (λ j, (i, j)) <$> range w) ↔ in_bounds h w x.
Proof.
  unfold in_bounds, range. rewrite list_elem_of_bind. split.
  - intros (i & Hx & Hi). apply list_elem_of_fmap in Hx as (j & -> & Hj).
    apply elem_of_seqZ in Hi, Hj. simpl. lia.
  - intros [H1 H2]. destruct x as [i j]. simpl in *. exists i.
    split; [|apply elem_of_seqZ; lia].
    apply list_elem_of_fmap. exists j. split; [done|apply elem_of_seqZ; lia].
Qed.

Lemma elem_of_potential_moves st x :
  x ∈ potential_moves st
  ↔ in_bounds (height st) (width st) x ∧ (x ∉ moves_made st) ∧ x ∉ mines st.
Proof.
  rewrite potential_moves_filter, list_elem_of_filter, elem_of_grid.
  rewrite andb_true_iff, !bool_decide_eq_true. tauto.
Qed.

Lemma NoDup_potential_moves st : NoDup (potential_moves st).
Proof.
  rewrite potential_moves_filter. apply NoDup_filter, NoDup_bind.
  - intros i i' p _ _ Hp Hp'.
    apply list_elem_of_fmap in Hp as (j & -> & _).
    apply list_elem_of_fmap in Hp' as (j' & [= -> _] & _). done.
  - intros i _. apply NoDup_fmap_2; [|apply NoDup_seqZ].
    by intros j j' [= ->].
  - apply NoDup_seqZ.
Qed.

(** X3: [make_random_move] leaves the state as it is.  A cell it returns
    is a cell of the board that has not been played and is not a known
    mine; every such cell is returned for exactly one draw of
    [random.choice]; and the result is [None] when there is no such cell. *)
Theorem make_random_move_spec (r : nat) (st : MinesweeperAI.t) :
  (make_random_move r st).2 = st
  ∧ (∀ c, (make_random_move r st).1 = Some c →
          in_bounds (height st) (width st) c
          ∧ (c ∉ moves_made st) ∧ c ∉ mines st)
  ∧ (∀ c, in_bounds (height st) (width st) c →
          c ∉ moves_made st → c ∉ mines st →
          ∃ r', (r' < length (potential_moves st))%nat
                ∧ (make_random_move r' st).1 = Some c
                ∧ ∀ r'', (make_random_move r'' st).1 = Some c → r'' = r')
  ∧ ((¬ ∃ c, in_bounds (height st) (width st) c
             ∧ (c ∉ moves_made st) ∧ c ∉ mines st) →
     (make_random_move r st).1 = None).
Proof.
  assert (∀ k, (make_random_move k st).1 = potential_moves st !! k) as Hrun.
  { intros k. unfold make_random_move. case_bool_decide as Hlen; [done|].
    simpl. destruct (potential_moves st); [done|]. simpl in Hlen. lia. }
  split_and!.
  - unfold make_random_move. by case_bool_decide.
  - intros c. rewrite Hrun. intros Hc.
    apply elem_of_potential_moves, list_elem_of_lookup. eauto.
  - intros c H1 H2 H3.
    assert (c ∈ potential_moves st) as [k Hk]%list_elem_of_lookup
      by (by apply elem_of_potential_moves).
    exists k. split_and!.
    + by apply lookup_lt_Some in Hk.
    + by rewrite Hrun.
    + intros k'. rewrite Hrun. intros Hk'.
      exact (NoDup_lookup _ _ _ _ (NoDup_potential_moves st) Hk' Hk).
  - intros Hnone. rewrite Hrun.
    destruct (potential_moves st !! r) as [c|] eqn:Hc; [|done].
    destruct Hnone. exists c.
    apply elem_of_potential_moves, list_elem_of_lookup. eauto.
Qed.

(** ** Marking a cell in a sentence *)

Lemma Sentence_eq (s s' : Sentence) :
  cells s = cells s' → count s = count s' → s = s'.
Proof. destruct s, s'. simpl. by intros -> ->. Qed.

Lemma mark_mine_count c s :
  count (Sentence.mark_mine c s)
  = count s - (if bool_decide (c ∈ cells s) then 1 else 0).
Proof. unfold Sentence.mark_mine. case_bool_decide; simpl; lia. Qed.

Lemma mark_safe_count c s : count (Sentence.mark_safe c s) = count s.
Proof. unfold Sentence.mark_safe. by case_bool_decide. Qed.

Lemma mark_mine_absent c s : c ∉ cells s → Sentence.mark_mine c s = s.
Proof. intros H. unfold Sentence.mark_mine. by rewrite bool_decide_eq_false_2. Qed.

Lemma mark_safe_absent c s : c ∉ cells s → Sentence.mark_safe c s = s.
Proof. intros H. unfold Sentence.mark_safe. by rewrite bool_decide_eq_false_2. Qed.

Lemma bool_decide_elem_of_other (a b : cell) (X : gset cell) :
  a ≠ b → bool_decide (a ∈ X ∖ {[b]}) = bool_decide (a ∈ X).
Proof.
  intros Hab. apply bool_decide_ext.
  rewrite elem_of_difference, elem_of_singleton. tauto.
Qed.

Lemma sentence_marks_commute a b s :
  a ≠ b →
  Sentence.mark_mine a (Sentence.mark_safe b s)
    = Sentence.mark_safe b (Sentence.mark_mine a s)
  ∧ Sentence.mark_mine a (Sentence.mark_mine b s)
    = Sentence.mark_mine b (Sentence.mark_mine a s)
  ∧ Sentence.mark_safe a (Sentence.mark_safe b s)
    = Sentence.mark_safe b (Sentence.mark_safe a s).
Proof.
  intros Hab. assert (b ≠ a) as Hba by done.
  split_and!; apply Sentence_eq;
    repeat first
      [ rewrite mark_mine_cells | rewrite mark_safe_cells
      | rewrite mark_mine_count | rewrite mark_safe_count
      | rewrite bool_decide_elem_of_other by done ];
    try (apply set_eq; intros x; rewrite !elem_of_difference; tauto);
    repeat case_bool_decide; lia.
Qed.

(** X4: in a sentence, a mark removes the cell and no other cell; the
    count drops by one when a cell of the sentence is marked as a mine and
    stays in every other case.  Marking the same cell again, as a mine or
    as safe, changes nothing, so a cell is counted at most once; marks of
    different cells can be made in either order. *)
Theorem sentence_marks (a b : cell) (s : Sentence) :
  cells (Sentence.mark_mine a s) = cells s ∖ {[a]}
  ∧ cells (Sentence.mark_safe a s) = cells s ∖ {[a]}
  ∧ count (Sentence.mark_mine a s)
    = count s - (if bool_decide (a ∈ cells s) then 1 else 0)
  ∧ count (Sentence.mark_safe a s) = count s
  ∧ Sentence.mark_mine a (Sentence.mark_mine a s) = Sentence.mark_mine a s
  ∧ Sentence.mark_safe a (Sentence.mark_mine a s) = Sentence.mark_mine a s
  ∧ Sentence.mark_mine a (Sentence.mark_safe a s) = Sentence.mark_safe a s
  ∧ Sentence.mark_safe a (Sentence.mark_safe a s) = Sentence.mark_safe a s
  ∧ (a ≠ b →
     Sentence.mark_mine a (Sentence.mark_safe b s)
       = Sentence.mark_safe b (Sentence.mark_mine a s)
     ∧ Sentence.mark_mine a (Sentence.mark_mine b s)
       = Sentence.mark_mine b (Sentence.mark_mine a s)
     ∧ Sentence.mark_safe a (Sentence.mark_safe b s)
       = Sentence.mark_safe b (Sentence.mark_safe a s)).
Proof.
  assert (a ∉ cells (Sentence.mark_mine a s)) as Hm
    by (rewrite mark_mine_cells; set_solver).
  assert (a ∉ cells (Sentence.mark_safe a s)) as Hs
    by (rewrite mark_safe_cells; set_solver).
  split_and!.
  - apply mark_mine_cells.
  - apply mark_safe_cells.
  - apply mark_mine_count.
  - apply mark_safe_count.
  - by apply mark_mine_absent.
  - by apply mark_safe_absent.
  - by apply mark_mine_absent.
  - by apply mark_safe_absent.
  - apply sentence_marks_commute.
Qed.

(** ** True sentences *)

Lemma holds_well_counted M s : holds M s → well_counted s.
Proof.
  unfold holds, well_counted, len. intros ->.
  assert (size (cells s ∩ M) ≤ size (cells s))%nat
    by (apply subseteq_size; set_solver).
  lia.
Qed.

(** X5: for a sentence that is true of a mine layout, the count lies
    between zero and the number of cells, the cells [known_mines] returns
    are mines and the cells [known_safes] returns are not; the sentence
    stays true when a mine is marked as a mine and when a cell that is not a
    mine is marked as safe. *)
Theorem true_sentence_facts (M : gset cell) (s : Sentence) :
  holds M s →
  well_counted s
  ∧ Sentence.known_mines s ⊆ M
  ∧ Sentence.known_safes s ## M
  ∧ (∀ c, c ∈ M → holds M (Sentence.mark_mine c s))
  ∧ (∀ c, c ∉ M → holds M (Sentence.mark_safe c s)).
Proof.
  intros Hs. split_and!.
  - by apply (holds_well_counted M).
  - by apply known_mines_sound.
  - by apply known_safes_sound.
  - intros c Hc. by apply holds_mark_mine.
  - intros c Hc. by apply holds_mark_safe.
Qed.

Lemma true_sentence_facts_witness :
  holds {[(0,1)]} Examples.row
  ∧ holds {[(0,1)]} (Sentence.mark_mine (0,1) Examples.row).
Proof.
  assert (holds {[(0,1)]} Examples.row) as H
    by (apply (bool_decide_unpack _); vm_compute; exact I).
  split; [exact H|].
  apply (true_sentence_facts {[(0,1)]} Examples.row H).
  apply (bool_decide_unpack _). vm_compute. exact I.
Defined.

(** ** What [knowledge_update] keeps *)

Lemma pass_length K K' b : pass K = Some (K', b) → (length K' ≤ length K)%nat.
Proof.
  apply (pass_inv (λ s, (length s.1 ≤ length K)%nat)); [|done].
  intros i jdx j K1 b1 _ _ Hle. etrans; [apply eliminate_length|done].
Qed.

Lemma knowledge_loop_length fuel K K' :
  knowledge_loop fuel K = Some K' → (length K' ≤ length K)%nat.
Proof.
  apply (knowledge_loop_inv (λ K1, (length K1 ≤ length K)%nat)); [|done].
  intros K1 K2 b Hle Hp. apply pass_length in Hp. lia.
Qed.

Lemma knowledge_loop_cells fuel K K' :
  knowledge_loop fuel K = Some K' →
  Forall (λ s', ∃ s, s ∈ K ∧ cells s' ⊆ cells s) K'.
Proof.
  apply (knowledge_loop_Forall (λ s', ∃ s, s ∈ K ∧ cells s' ⊆ cells s)).
  - intros s1 s2 _ (s & Hs & Hsub) _ _. exists s. split; [done|].
    simpl. set_solver.
  - apply Forall_forall. intros s Hs. by exists s.
Qed.

(** X6: [knowledge_update] adds no sentence and no cell: the list does not
    get longer and the cells of every sentence left are among the cells of
    a sentence of the list it was given.  Sentences that were all true of a
    mine layout are all true of it afterwards. *)
Theorem knowledge_update_shrinks fuel (st st' : MinesweeperAI.t) :
  knowledge_update fuel st = Some st' →
  (length (knowledge st') ≤ length (knowledge st))%nat
  ∧ Forall (λ s', ∃ s, s ∈ knowledge st ∧ cells s' ⊆ cells s) (knowledge st')
  ∧ ∀ M, Forall (holds M) (knowledge st) → Forall (holds M) (knowledge st').
Proof.
  unfold knowledge_update.
  destruct (knowledge_loop fuel (knowledge st)) as [K'|] eqn:Hrun; [|done].
  intros [= <-]. simpl. split_and!.
  - by apply (knowledge_loop_length fuel).
  - by apply (knowledge_loop_cells fuel).
  - intros M HM. by apply (knowledge_loop_holds M fuel (knowledge st)).
Qed.

Lemma knowledge_update_shrinks_witness :
  knowledge_update 3 Examples.nested = Some Examples.nested_updated
  ∧ (length (knowledge Examples.nested_updated)
     ≤ length (knowledge Examples.nested))%nat.
Proof.
  assert (knowledge_update 3 Examples.nested = Some Examples.nested_updated)
    as H by (vm_compute; reflexivity).
  split; [exact H|].
  exact (proj1 (knowledge_update_shrinks 3 _ _ H)).
Defined.

(** *** Sentences that still have cells are never dropped *)

Lemma filter_insert_length (P : Sentence → Prop) `{∀ s, Decision (P s)}
    (K : list Sentence) n j s :
  K !! n = Some j → P j → P s →
  length (filter P (<[n:=s]> K)) = length (filter P K).
Proof.
  revert n. induction K as [|y K IH]; intros [|n] Hn Hj Hs; simplify_eq/=.
  - by rewrite !filter_cons_True.
  - rewrite !filter_cons. destruct (decide (P y)); simpl; by rewrite (IH n).
Qed.

Lemma filter_remove_length (P : Sentence → Prop) `{∀ s, Decision (P s)}
    (K : list Sentence) x :
  ¬ P x → length (filter P (remove x K)) = length (filter P K).
Proof.
  intros Hx. induction K as [|y K IH]; simpl; [done|].
  case_bool_decide as Hy.
  - subst y. by rewrite filter_cons_False.
  - rewrite !filter_cons. destruct (decide (P y)); simpl; by rewrite IH.
Qed.

Lemma filter_prune_length K x :
  length (filter (λ s, cells s ≠ ∅) (prune x K))
  = length (filter (λ s, cells s ≠ ∅) K).
Proof.
  unfold prune. destruct (bool_decide (x ∈ K)); simpl; [|done].
  case_bool_decide as Hx; [|done].
  apply filter_remove_length. apply len_zero in Hx. tauto.
Qed.

Lemma eliminate_live i jdx j K b :
  K !! jdx = Some j →
  length (filter (λ s, cells s ≠ ∅) (eliminate i jdx j (K, b)).1)
  = length (filter (λ s, cells s ≠ ∅) K).
Proof.
  intros Hj. destruct (eliminate_kind i jdx j K b) as [Hi Hj' Hsub| |]; simpl.
  - apply (filter_insert_length _ _ _ j); [done..|].
    by apply nonempty_subtract.
  - done.
  - by rewrite !filter_prune_length.
Qed.

Lemma knowledge_loop_live fuel K K' :
  knowledge_loop fuel K = Some K' →
  length (filter (λ s, cells s ≠ ∅) K')
  = length (filter (λ s, cells s ≠ ∅) K).
Proof.
  apply (knowledge_loop_inv
    (λ K1, length (filter (λ s, cells s ≠ ∅) K1)
           = length (filter (λ s, cells s ≠ ∅) K))); [|done].
  intros K1 K2 b H1. rewrite <- H1.
  apply (pass_inv
    (λ s, length (filter (λ s, cells s ≠ ∅) s.1)
          = length (filter (λ s, cells s ≠ ∅) K1))); [|done].
  intros i jdx j K3 b3 _ Hj H3. by rewrite eliminate_live.
Qed.

(** X7: [knowledge_update] drops empty sentences only: the list has as
    many sentences with cells after the call as before. *)
Theorem knowledge_update_keeps_live fuel (st st' : MinesweeperAI.t) :
  knowledge_update fuel st = Some st' →
  length (filter (λ s, cells s ≠ ∅) (knowledge st'))
  = length (filter (λ s, cells s ≠ ∅) (knowledge st)).
Proof.
  unfold knowledge_update.
  destruct (knowledge_loop fuel (knowledge st)) as [K'|] eqn:Hrun; [|done].
  intros [= <-]. simpl. by apply (knowledge_loop_live fuel).
Qed.

Lemma knowledge_update_keeps_live_witness :
  knowledge_update 1 Examples.game4_handed = Some Examples.game4
  ∧ length (filter (λ s, cells s ≠ ∅) (knowledge Examples.game4))
    = length (filter (λ s, cells s ≠ ∅) (knowledge Examples.game4_handed)).
Proof.
  assert (knowledge_update 1 Examples.game4_handed = Some Examples.game4)
    as H by (vm_compute; reflexivity).
  split; [exact H|].
  exact (knowledge_update_keeps_live 1 _ _ H).
Defined.

Lemma filter_all (P : Sentence → Prop) `{∀ s, Decision (P s)} K :
  Forall P K → filter P K = K.
Proof.
  induction 1 as [|s K Hs _ IH]; [done|].
  by rewrite filter_cons_True, IH.
Qed.

(** X8: on a knowledge list without empty sentences [knowledge_update]
    removes nothing, leaves no sentence whose cells are strictly inside
    another's, and a second call returns the list as it is. *)
Theorem knowledge_update_without_empty fuel (st st' : MinesweeperAI.t) :
  Forall (λ s, cells s ≠ ∅) (knowledge st) →
  knowledge_update fuel st = Some st' →
  length (knowledge st') = length (knowledge st)
  ∧ settled (knowledge st')
  ∧ ∀ fuel', knowledge_update (S fuel') st' = Some st'.
Proof.
  intros HK Hrun.
  pose proof (knowledge_update_again_without_empty fuel) as Hagain.
  split_and!; [| |intros fuel'; by eapply Hagain].
  - unfold knowledge_update in Hrun.
    destruct (knowledge_loop fuel (knowledge st)) as [K'|] eqn:HK'; [|done].
    injection Hrun as <-. simpl.
    assert (Forall (λ s, cells s ≠ ∅) K') as HK2.
    { eapply (knowledge_loop_Forall (λ s, cells s ≠ ∅)); [|done..].
      apply nonempty_subtract. }
    apply knowledge_loop_live in HK'.
    by rewrite !filter_all in HK'.
  - unfold knowledge_update in Hrun.
    destruct (knowledge_loop fuel (knowledge st)) as [K'|] eqn:HK'; [|done].
    injection Hrun as <-. simpl. by eapply knowledge_loop_reaches_settled.
Qed.

Lemma knowledge_update_without_empty_witness :
  Forall (λ s, cells s ≠ ∅) (knowledge Examples.nested)
  ∧ knowledge_update 1 Examples.nested_updated = Some Examples.nested_updated.
Proof.
  assert (Forall (λ s, cells s ≠ ∅) (knowledge Examples.nested)) as H
    by (apply (bool_decide_unpack _); vm_compute; exact I).
  split; [exact H|].
  apply (knowledge_update_without_empty 3 Examples.nested
           Examples.nested_updated H).
  vm_compute. reflexivity.
Defined.

(** *** Facts a sentence shows by itself are never lost *)

Lemma elem_of_insert_or (K : list Sentence) n j s' s :
  K !! n = Some j → s ∈ K → s = j ∨ s ∈ <[n:=s']> K.
Proof.
  intros Hn [k Hk]%list_elem_of_lookup.
  destruct (decide (k = n)) as [->|Hne]; [left; congruence|].
  right. apply list_elem_of_lookup. exists k.
  by rewrite list_lookup_insert_ne.
Qed.

Lemma elem_of_remove_other x s K : s ∈ K → s ≠ x → s ∈ remove x K.
Proof.
  induction K as [|y K IH]; simpl; [done|].
  intros [->|Hs]%elem_of_cons Hne.
  - rewrite bool_decide_eq_false_2 by done. apply list_elem_of_here.
  - case_bool_decide; [done|]. apply list_elem_of_further. by apply IH.
Qed.

Lemma elem_of_prune_live x s K : s ∈ K → cells s ≠ ∅ → s ∈ prune x K.
Proof.
  intros Hs Hne. unfold prune. destruct (bool_decide (x ∈ K)); simpl; [|done].
  case_bool_decide as Hx; [|done]. apply elem_of_remove_other; [done|].
  intros ->. by apply len_zero in Hx.
Qed.

Lemma known_safes_elem x s :
  x ∈ Sentence.known_safes s ↔ count s = 0 ∧ x ∈ cells s.
Proof.
  unfold Sentence.known_safes. case_bool_decide; [tauto|].
  split; [by intros ?%not_elem_of_empty|tauto].
Qed.

Lemma known_mines_elem x s :
  x ∈ Sentence.known_mines s
  ↔ len (cells s) = count s ∧ count s ≠ 0 ∧ x ∈ cells s.
Proof.
  unfold Sentence.known_mines.
  destruct (bool_decide (len (cells s) = count s)) eqn:E1;
    destruct (bool_decide (count s ≠ 0)) eqn:E2; simpl;
    try apply bool_decide_eq_true in E1; try apply bool_decide_eq_true in E2;
    try apply bool_decide_eq_false in E1; try apply bool_decide_eq_false in E2;
    [tauto|..]; (split; [by intros ?%not_elem_of_empty|tauto]).
Qed.

(** A cell that some sentence of the list shows to be safe, or to be a
    mine. *)
Lemma elem_of_union_known_safes x K :
  x ∈ ⋃ (Sentence.known_safes <$> K)
  ↔ ∃ s, s ∈ K ∧ count s = 0 ∧ x ∈ cells s.
Proof.
  rewrite elem_of_union_list. split.
  - intros (X & HX & Hx). apply list_elem_of_fmap in HX as (s & -> & Hs).
    apply known_safes_elem in Hx. eauto.
  - intros (s & Hs & H0 & Hx). exists (Sentence.known_safes s).
    split; [by apply list_elem_of_fmap_2|by apply known_safes_elem].
Qed.

Lemma elem_of_union_known_mines x K :
  x ∈ ⋃ (Sentence.known_mines <$> K)
  ↔ ∃ s, s ∈ K ∧ len (cells s) = count s ∧ count s ≠ 0 ∧ x ∈ cells s.
Proof.
  rewrite elem_of_union_list. split.
  - intros (X & HX & Hx). apply list_elem_of_fmap in HX as (s & -> & Hs).
    apply known_mines_elem in Hx. eauto.
  - intros (s & Hs & H0 & Hx). exists (Sentence.known_mines s).
    split; [by apply list_elem_of_fmap_2|by apply known_mines_elem].
Qed.

Section direct_facts.
Variable M : gset cell.

Lemma holds_no_mine s : holds M s → count s = 0 → cells s ## M.
Proof.
  unfold holds. intros Hs H0. rewrite H0 in Hs. symmetry in Hs.
  apply len_zero in Hs. set_solver.
Qed.

Lemma holds_all_mines s : holds M s → len (cells s) = count s → cells s ⊆ M.
Proof.
  unfold holds, len. intros Hs Hall.
  assert (cells s ∩ M = cells s) as <-; [|set_solver].
  apply set_subseteq_size_eq; [set_solver|]. lia.
Qed.

Lemma holds_disjoint_count s : holds M s → cells s ## M → count s = 0.
Proof.
  unfold holds. intros -> Hd. apply len_zero. set_solver.
Qed.

Lemma holds_subset_count s : holds M s → cells s ⊆ M → count s = len (cells s).
Proof.
  unfold holds. intros -> Hsub. f_equal. set_solver.
Qed.

Lemma eliminate_facts S N i jdx j K b :
  K !! jdx = Some j →
  facts_kept M S N K → (cells i ≠ ∅ → i ∈ K) →
  facts_kept M S N (eliminate i jdx j (K, b)).1
  ∧ (cells i ≠ ∅ → i ∈ (eliminate i jdx j (K, b)).1).
Proof.
  intros Hj (HK & HS & HN) Hi.
  assert (holds M j) as Hhj by exact (Forall_lookup_1 _ _ _ _ HK Hj).
  destruct (eliminate_kind i jdx j K b) as [Hi0 Hj0 Hsub| |Hempty]; simpl.
  - specialize (Hi Hi0).
    assert (holds M i) as Hhi by (rewrite Forall_forall in HK; by apply HK).
    set (j' := mkSentence (cells j ∖ cells i) (count j - count i)).
    assert (holds M j') as Hhj' by (by apply holds_subtract).
    assert (j' ∈ <[jdx:=j']> K) as Hj'.
    { apply list_elem_of_lookup. exists jdx.
      apply list_lookup_insert_eq. by apply lookup_lt_Some in Hj. }
    assert (i ∈ <[jdx:=j']> K) as Hi'.
    { destruct (elem_of_insert_or K jdx j j' i Hj Hi) as [->|?]; [|done].
      by destruct Hsub as [_ []]. }
    split; [|done]. split_and!.
    + by apply Forall_insert.
    + intros x Hx. apply HS, elem_of_union_known_safes in Hx
        as (s & Hs & H0 & Hxs).
      apply elem_of_union_known_safes.
      destruct (elem_of_insert_or K jdx j j' s Hj Hs) as [->|?];
        [|by exists s].
      pose proof (holds_no_mine _ Hhj H0) as Hd.
      assert (count i = 0) as Hi00
        by (apply holds_disjoint_count; [done|]; destruct Hsub; set_solver).
      destruct (decide (x ∈ cells i)); [by exists i|].
      exists j'. split_and!; [done|simpl; lia|]. simpl.
      by apply elem_of_difference.
    + intros x Hx. apply HN, elem_of_union_known_mines in Hx
        as (s & Hs & Hall & Hn0 & Hxs).
      apply elem_of_union_known_mines.
      destruct (elem_of_insert_or K jdx j j' s Hj Hs) as [->|?];
        [|by exists s].
      pose proof (holds_all_mines _ Hhj Hall) as Hm.
      assert (count i = len (cells i)) as Hic
        by (apply holds_subset_count; [done|]; destruct Hsub; set_solver).
      destruct (decide (x ∈ cells i)).
      { exists i. split_and!; [done..| |done].
        rewrite Hic. by apply len_nonzero. }
      assert (x ∈ cells j ∖ cells i) as Hxd by (by apply elem_of_difference).
      assert (len (cells j ∖ cells i) = count j - count i) as Hc.
      { unfold len in *. destruct Hsub as [Hsub _].
        rewrite (size_difference (cells j) (cells i)) by done.
        apply subseteq_size in Hsub. lia. }
      exists j'. split_and!; [done|done| |done]. simpl.
      rewrite <- Hc. apply len_nonzero. set_solver.
  - done.
  - split.
    + split_and!.
      * by do 2 apply prune_Forall.
      * intros x Hx. apply HS, elem_of_union_known_safes in Hx
          as (s & Hs & H0 & Hxs).
        apply elem_of_union_known_safes. exists s. split; [|done].
        do 2 (apply elem_of_prune_live; [|set_solver]). done.
      * intros x Hx. apply HN, elem_of_union_known_mines in Hx
          as (s & Hs & Hall & Hn0 & Hxs).
        apply elem_of_union_known_mines. exists s. split; [|done].
        do 2 (apply elem_of_prune_live; [|set_solver]). done.
    + intros Hi0. do 2 (apply elem_of_prune_live; [|done]). auto.
Qed.

Lemma pass_facts S N K K' b :
  facts_kept M S N K → pass K = Some (K', b) → facts_kept M S N K'.
Proof.
  intros HK. unfold pass.
  apply (for_in_inv _ _ (λ s, facts_kept M S N s.1)); [|done].
  intros idx i [K0 b0] st1 Hi H0 Hin. simpl in Hi, H0.
  cut (facts_kept M S N st1.1 ∧ (cells i ≠ ∅ → i ∈ st1.1)); [tauto|].
  revert Hin.
  apply (inner_loop_inv
    (λ s, facts_kept M S N s.1 ∧ (cells i ≠ ∅ → i ∈ s.1))).
  - intros jdx j K1 b1 Hj [H1 H2]. by apply eliminate_facts.
  - split; [done|]. intros _. apply list_elem_of_lookup. eauto.
Qed.

Lemma knowledge_loop_facts S N fuel K K' :
  facts_kept M S N K → knowledge_loop fuel K = Some K' → facts_kept M S N K'.
Proof.
  apply (knowledge_loop_inv (facts_kept M S N)).
  intros K1 K2 b. apply pass_facts.
Qed.

End direct_facts.

(** X9: when the sentences are true of a mine layout, [knowledge_update]
    loses no fact that a sentence shows by itself: a cell that
    [known_safes] returned for some sentence before the call is returned
    for some sentence after it, and the same holds for [known_mines]. *)
Theorem knowledge_update_keeps_facts (M : gset cell) fuel
    (st st' : MinesweeperAI.t) :
  Forall (holds M) (knowledge st) →
  knowledge_update fuel st = Some st' →
  ⋃ (Sentence.known_safes <$> knowledge st)
    ⊆ ⋃ (Sentence.known_safes <$> knowledge st')
  ∧ ⋃ (Sentence.known_mines <$> knowledge st)
    ⊆ ⋃ (Sentence.known_mines <$> knowledge st').
Proof.
  intros HM. unfold knowledge_update.
  destruct (knowledge_loop fuel (knowledge st)) as [K'|] eqn:Hrun; [|done].
  intros [= <-]. simpl.
  assert (facts_kept M (⋃ (Sentence.known_safes <$> knowledge st))
            (⋃ (Sentence.known_mines <$> knowledge st)) (knowledge st)) as H0
    by done.
  by destruct (knowledge_loop_facts M _ _ _ _ _ H0 Hrun) as (_ & ? & ?).
Qed.

Lemma knowledge_update_keeps_facts_witness :
  Forall (holds {[(2,0)]}) (knowledge Examples.game4_handed)
  ∧ ⋃ (Sentence.known_safes <$> knowledge Examples.game4_handed)
    ⊆ ⋃ (Sentence.known_safes <$> knowledge Examples.game4).
Proof.
  assert (Forall (holds {[(2,0)]}) (knowledge Examples.game4_handed)) as H
    by (apply (bool_decide_unpack _); vm_compute; exact I).
  split; [exact H|].
  apply (knowledge_update_keeps_facts {[(2,0)]} 1 Examples.game4_handed
           Examples.game4 H).
  vm_compute. reflexivity.
Defined.

(** ** Ingesting an opened cell, continued *)

Lemma total_cells_app K1 K2 :
  total_cells (K1 ++ K2) = (total_cells K1 + total_cells K2)%nat.
Proof. unfold total_cells. induction K1 as [|s K1 IH]; simpl; lia. Qed.

Lemma total_cells_mark_safe c K :
  (total_cells (Sentence.mark_safe c <$> K) ≤ total_cells K)%nat.
Proof.
  unfold total_cells. induction K as [|s K IH]; csimpl; [done|].
  assert (size (cells (Sentence.mark_safe c s)) ≤ size (cells s))%nat
    by (rewrite mark_safe_cells; apply subseteq_size; set_solver).
  lia.
Qed.

(** X10: [add_knowledge] returns for every state, cell and count: the
    fixpoint loop it may start needs at most as many passes as there are
    cells in the sentences of the knowledge list, plus nine. *)
Theorem add_knowledge_terminates (c : cell) (n : Z) (st : MinesweeperAI.t) :
  ∃ st', ∀ extra,
    add_knowledge (S (total_cells (knowledge st) + 8 + extra)) c n st
    = Some st'.
Proof.
  unfold add_knowledge.
  set (st2 := mark_safe c (add_move c st)). set (s := new_sentence st2 c n).
  destruct (bool_decide (len (cells s) > 0)); [|by exists (extract st2)].
  unfold knowledge_update. simpl knowledge.
  set (K := (Sentence.mark_safe c <$> knowledge st) ++ [s]).
  assert (total_cells K ≤ total_cells (knowledge st) + 8)%nat as Hle.
  { unfold K. rewrite total_cells_app.
    pose proof (total_cells_mark_safe c (knowledge st)).
    assert (size (cells s) ≤ 8)%nat.
    { etrans; [|apply (nearby_cells_size st2 c)].
      apply subseteq_size. unfold s, new_sentence. simpl. set_solver. }
    assert (total_cells [s] = size (cells s)) as ->
      by (unfold total_cells; simpl; lia).
    lia. }
  destruct (knowledge_loop_is_Some (S (total_cells K)) K) as [K' HK']; [lia|].
  exists (extract (set_knowledge K' (set_knowledge K st2))). intros extra.
  rewrite (knowledge_loop_fuel_mono _ _ _ _ HK') by lia. done.
Qed.

Lemma add_knowledge_sets fuel c n st st' :
  add_knowledge fuel c n st = Some st' →
  height st' = height st ∧ width st' = width st
  ∧ moves_made st' = {[c]} ∪ moves_made st
  ∧ {[c]} ∪ safes st ⊆ safes st'
  ∧ mines st ⊆ mines st'
  ∧ (length (knowledge st') ≤ S (length (knowledge st)))%nat.
Proof.
  intros H. apply add_knowledge_unfold in H as (K' & -> & HK').
  destruct (extract_spec (set_knowledge K' (mark_safe c (add_move c st))))
    as (-> & -> & -> & -> & -> & ->).
  change (knowledge (mark_safe c (add_move c st)))
    with (Sentence.mark_safe c <$> knowledge st) in HK'.
  split_and!; [done|done|done|simpl; set_solver|simpl; set_solver|].
  change (knowledge (set_knowledge K' (mark_safe c (add_move c st)))) with K'.
  destruct (decide _).
  - subst K'. rewrite length_fmap. lia.
  - apply knowledge_loop_length in HK'.
    rewrite length_app, length_fmap in HK'. simpl in HK'. lia.
Qed.

(** X11: [add_knowledge] records the opened cell as played and as safe,
    keeps the board size, takes nothing out of the sets of known mines and
    known safe cells, and makes the knowledge list longer by at most one
    sentence. *)
Theorem add_knowledge_grows fuel (c : cell) (n : Z) (st st' : MinesweeperAI.t) :
  add_knowledge fuel c n st = Some st' →
  height st' = height st ∧ width st' = width st
  ∧ moves_made st' = {[c]} ∪ moves_made st
  ∧ c ∈ safes st'
  ∧ safes st ⊆ safes st'
  ∧ mines st ⊆ mines st'
  ∧ (length (knowledge st') ≤ S (length (knowledge st)))%nat.
Proof.
  intros H. apply add_knowledge_sets in H as (? & ? & ? & ? & ? & ?).
  split_and!; try done; set_solver.
Qed.

Lemma add_knowledge_grows_witness :
  add_knowledge 1 (1,1) 1 Examples.game3 = Some Examples.game4
  ∧ moves_made Examples.game4 = {[(1,1)]} ∪ moves_made Examples.game3.
Proof.
  assert (add_knowledge 1 (1,1) 1 Examples.game3 = Some Examples.game4) as H
    by (vm_compute; reflexivity).
  split; [exact H|].
  exact (proj1 (proj2 (proj2 (add_knowledge_grows 1 _ _ _ _ H)))).
Defined.

(** ** Cells of the board *)

Lemma on_board_subtract h w s s' :
  on_board h w (cells s) → on_board h w (cells s') →
  cells s ≠ ∅ → cells s ⊂ cells s' →
  on_board h w (cells (mkSentence (cells s' ∖ cells s) (count s' - count s))).
Proof.
  intros _ Hs' _ _ x Hx. simpl in Hx. apply Hs'.
  by apply elem_of_difference in Hx as [? _].
Qed.

Lemma on_board_union_known h w K :
  Forall (λ s, on_board h w (cells s)) K →
  on_board h w (⋃ (Sentence.known_safes <$> K))
  ∧ on_board h w (⋃ (Sentence.known_mines <$> K)).
Proof.
  rewrite Forall_forall. intros HK. split; intros x Hx.
  - apply elem_of_union_known_safes in Hx as (s & Hs & _ & Hx).
    by apply (HK s).
  - apply elem_of_union_known_mines in Hx as (s & Hs & _ & _ & Hx).
    by apply (HK s).
Qed.

Lemma on_board_insert h w c X :
  in_bounds h w c → on_board h w X → on_board h w ({[c]} ∪ X).
Proof.
  intros Hc HX x [->%elem_of_singleton|Hx]%elem_of_union; [done|by apply HX].
Qed.

Lemma within_board_mark_mine c st :
  within_board st → in_bounds (height st) (width st) c →
  within_board (mark_mine c st).
Proof.
  intros [H1 H2 H3 H4] Hc. split; simpl; try done.
  - by apply on_board_insert.
  - apply Forall_fmap. eapply Forall_impl; [exact H4|].
    intros s Hs x. simpl. rewrite mark_mine_cells.
    intros [? _]%elem_of_difference. by apply Hs.
Qed.

Lemma within_board_mark_safe c st :
  within_board st → in_bounds (height st) (width st) c →
  within_board (mark_safe c st).
Proof.
  intros [H1 H2 H3 H4] Hc. split; simpl; try done.
  - by apply on_board_insert.
  - apply Forall_fmap. eapply Forall_impl; [exact H4|].
    intros s Hs x. simpl. rewrite mark_safe_cells.
    intros [? _]%elem_of_difference. by apply Hs.
Qed.

Lemma within_board_add_knowledge fuel c n st st' :
  within_board st → in_bounds (height st) (width st) c →
  add_knowledge fuel c n st = Some st' → within_board st'.
Proof.
  intros Hst Hc Hrun.
  assert (within_board (mark_safe c (add_move c st))) as [H1 H2 H3 H4].
  { apply within_board_mark_safe; [|done]. destruct Hst as [H1 H2 H3 H4].
    split; simpl; try done. by apply on_board_insert. }
  apply add_knowledge_unfold in Hrun as (K' & -> & HK').
  set (st2 := mark_safe c (add_move c st)) in *.
  assert (Forall (λ s, on_board (height st) (width st) (cells s)) K') as HK.
  { destruct (decide _); [by subst K'|].
    eapply (knowledge_loop_Forall
              (λ s, on_board (height st) (width st) (cells s)));
      [apply on_board_subtract| |exact HK'].
    apply Forall_app. split; [done|]. constructor; [|constructor].
    intros x Hx. unfold new_sentence in Hx. simpl in Hx.
    assert (x ∈ nearby_cells st2 c) as Hn by set_solver.
    by apply nearby_cells_spec in Hn as [_ ?]. }
  destruct (on_board_union_known _ _ _ HK) as [Hs Hm].
  destruct (extract_spec (set_knowledge K' st2)) as (E1 & E2 & E3 & E4 & E5 & E6).
  split; rewrite E1, E2, ?E3, ?E4, ?E5, ?E6; simpl; try done.
  - intros x [?|?]%elem_of_union; [by apply H2|by apply Hm].
  - intros x [?|?]%elem_of_union; [by apply H3|by apply Hs].
Qed.

(** X12: a player that knows about cells of its board only stays so when
    [mark_mine], [mark_safe] or [add_knowledge] is called for a cell of
    the board: the moves made, the known mines, the known safe cells and
    the cells of all sentences are cells of the board. *)
Theorem within_board_kept (c : cell) (st : MinesweeperAI.t) :
  within_board st → in_bounds (height st) (width st) c →
  within_board (mark_mine c st)
  ∧ within_board (mark_safe c st)
  ∧ ∀ fuel n st', add_knowledge fuel c n st = Some st' → within_board st'.
Proof.
  intros Hst Hc. split_and!.
  - by apply within_board_mark_mine.
  - by apply within_board_mark_safe.
  - intros fuel n st'. by apply within_board_add_knowledge.
Qed.

Lemma within_board_kept_witness :
  within_board Examples.game3 ∧ within_board Examples.game4.
Proof.
  assert (within_board Examples.game3) as H.
  { split; simpl;
      try (apply (bool_decide_unpack _); vm_compute; exact I);
      intros x Hx; unfold in_bounds;
      repeat (apply elem_of_union in Hx as [Hx|Hx]);
      try apply elem_of_singleton in Hx; try (subst x; simpl; lia);
      by apply not_elem_of_empty in Hx. }
  split; [exact H|].
  assert (in_bounds (height Examples.game3) (width Examples.game3) (1,1))
    as Hb by (unfold in_bounds; simpl; lia).
  apply (proj2 (proj2 (within_board_kept (1,1) Examples.game3 H Hb)) 1%nat 1).
  vm_compute. reflexivity.
Defined.

(** ** Play on a board *)

Lemma game2_reachable : reachable Examples.board Examples.game2.
Proof.
  apply (reach_add_knowledge _ Examples.game1 _ 1 (1,0));
    [|unfold in_bounds; simpl; lia|reflexivity|vm_compute; reflexivity].
  apply (reach_add_knowledge _ (init 3 3) _ 1 (0,0));
    [|unfold in_bounds; simpl; lia|reflexivity|vm_compute; reflexivity].
  apply (reach_init Examples.board).
Defined.

Lemma reachable_moves_safe g st : reachable g st → moves_made st ⊆ safes st.
Proof.
  induction 1 as [|st st' fuel c _ IH _ _ Hrun|st c _ IH _ _|st c _ IH _ _];
    simpl; [done| |done|set_solver].
  apply add_knowledge_sets in Hrun as (_ & _ & -> & Hs & _). set_solver.
Qed.

Lemma reachable_within_board g st : reachable g st → within_board st.
Proof.
  induction 1 as [|st st' fuel c Hr IH Hc _ Hrun|st c Hr IH Hc _|st c Hr IH Hc _].
  - split; simpl; try done; by intros x ?%not_elem_of_empty.
  - apply reachable_sound in Hr as [Hh Hw _ _ _ _].
    eapply within_board_add_knowledge; [done| |done]. by rewrite Hh, Hw.
  - apply reachable_sound in Hr as [Hh Hw _ _ _ _].
    apply within_board_mark_mine; [done|]. by rewrite Hh, Hw.
  - apply reachable_sound in Hr as [Hh Hw _ _ _ _].
    apply within_board_mark_safe; [done|]. by rewrite Hh, Hw.
Qed.

(** X13: in play on a board, what the player knows is true of the
    board: every known mine is a mine, no known safe cell and no opened
    cell is a mine, every opened cell is known safe, every sentence counts
    the mines among its cells, with a count between zero and the number of
    its cells, and only cells of the board are mentioned. *)
Theorem reachable_knowledge_true (g : Minesweeper.t) (st : MinesweeperAI.t) :
  reachable g st →
  mines st ⊆ Minesweeper.mines g
  ∧ safes st ## Minesweeper.mines g
  ∧ moves_made st ⊆ safes st
  ∧ Forall (λ s, holds (Minesweeper.mines g) s ∧ well_counted s) (knowledge st)
  ∧ height st = Minesweeper.height g ∧ width st = Minesweeper.width g
  ∧ within_board st.
Proof.
  intros Hr. pose proof (reachable_sound g st Hr) as [H1 H2 H3 H4 H5 H6].
  split_and!; try done.
  - by apply (reachable_moves_safe g).
  - eapply Forall_impl; [exact H6|]. intros s Hs.
    split; [done|by apply (holds_well_counted (Minesweeper.mines g))].
  - by apply (reachable_within_board g).
Qed.

Lemma reachable_knowledge_true_witness :
  reachable Examples.board Examples.game4
  ∧ safes Examples.game4 ## Minesweeper.mines Examples.board.
Proof.
  split; [apply game4_reachable|].
  apply (reachable_knowledge_true Examples.board Examples.game4).
  apply game4_reachable.
Defined.

(** X14: in play on a board, the cell [make_safe_move] returns is a cell
    of the board that is not a mine and has not been opened, and it is one
    of the cells [make_random_move] can return. *)
Theorem safe_move_is_safe (g : Minesweeper.t) (order : list cell)
    (st : MinesweeperAI.t) (c : cell) :
  reachable g st →
  (∀ x, x ∈ order ↔ x ∈ safes st) →
  (make_safe_move order st).1 = Some c →
  Minesweeper.is_mine g c = false
  ∧ in_bounds (Minesweeper.height g) (Minesweeper.width g) c
  ∧ (c ∉ moves_made st)
  ∧ ∃ r, (make_random_move r st).1 = Some c.
Proof.
  intros Hr Horder Hc. simpl in Hc.
  apply first_safe_Some in Hc as (_ & Hm & Hs).
  pose proof (reachable_sound g st Hr) as [H1 H2 H3 H4 H5 H6].
  pose proof (reachable_within_board g st Hr) as [_ _ Hb _].
  assert (c ∉ Minesweeper.mines g) as Hnm by set_solver.
  assert (in_bounds (height st) (width st) c) as Hin by (by apply Hb).
  split_and!.
  - by apply is_mine_false.
  - by rewrite <- H1, <- H2.
  - done.
  - assert (c ∈ potential_moves st) as [r Hrm]%list_elem_of_lookup.
    { apply elem_of_potential_moves. split_and!; [done..|]. set_solver. }
    exists r. unfold make_random_move. case_bool_decide as Hlen; [done|].
    simpl. destruct (potential_moves st); [done|]. simpl in Hlen. lia.
Qed.

Lemma safe_move_is_safe_witness :
  reachable Examples.board Examples.game3
  ∧ (make_safe_move (elements (safes Examples.game3)) Examples.game3).1
    = Some (0,2)
  ∧ Minesweeper.is_mine Examples.board (0,2) = false.
Proof.
  assert ((make_safe_move (elements (safes Examples.game3)) Examples.game3).1
          = Some (0,2)) as H by (vm_compute; reflexivity).
  split; [apply game3_reachable|]. split; [exact H|].
  apply (safe_move_is_safe Examples.board (elements (safes Examples.game3))
           Examples.game3 (0,2) game3_reachable); [|exact H].
  intros x. apply elem_of_elements.
Defined.

Lemma add_knowledge_facts g fuel c st st' :
  sound g st → c ∉ Minesweeper.mines g →
  add_knowledge fuel c (Minesweeper.nearby_mines g c) st = Some st' →
  let st2 := mark_safe c (add_move c st) in
  let s := new_sentence st2 c (Minesweeper.nearby_mines g c) in
  ⋃ (Sentence.known_safes <$> (knowledge st2 ++ [s])) ⊆ safes st'
  ∧ ⋃ (Sentence.known_mines <$> (knowledge st2 ++ [s])) ⊆ mines st'.
Proof.
  intros Hst Hc Hrun st2 s.
  assert (sound g st2) as H2 by (by apply sound_mark_safe, sound_add_move).
  pose proof (sound_new_sentence g st2 c H2) as Hs. fold s in Hs.
  apply add_knowledge_unfold in Hrun as (K' & -> & HK').
  fold st2 in HK'. fold s in HK'. fold st2.
  destruct (extract_spec (set_knowledge K' st2)) as (_ & _ & _ & _ & -> & ->).
  simpl knowledge. simpl safes. simpl mines.
  rewrite !fmap_app, !union_list_app_L. simpl.
  rewrite !(right_id_L ∅ (∪)).
  destruct (decide (cells s = ∅)) as [He|Hne].
  - subst K'.
    assert (Sentence.known_safes s = ∅) as ->.
    { apply set_eq. intros x. rewrite known_safes_elem, He. set_solver. }
    assert (Sentence.known_mines s = ∅) as ->.
    { apply set_eq. intros x. rewrite known_mines_elem, He. set_solver. }
    set_solver.
  - assert (facts_kept (Minesweeper.mines g)
              (⋃ (Sentence.known_safes <$> (knowledge st2 ++ [s])))
              (⋃ (Sentence.known_mines <$> (knowledge st2 ++ [s])))
              (knowledge st2 ++ [s])) as H0.
    { split_and!; [|done..]. apply Forall_app. split; [apply H2|].
      by constructor. }
    destruct (knowledge_loop_facts _ _ _ _ _ _ H0 HK') as (_ & HS & HN).
    rewrite !fmap_app, !union_list_app_L in HS, HN. simpl in HS, HN.
    rewrite !(right_id_L ∅ (∪)) in HS, HN. set_solver.
Qed.

(** X15: in play on a board, [add_knowledge] records every fact that a
    sentence shows by itself when the fixpoint loop starts: the cells
    [known_safes] and [known_mines] return for the new sentence, and for
    every other sentence once the opened cell is taken out, are in [safes]
    and in [mines] after the call.  When the reported count is 0, all
    neighbours of the opened cell are known safe after the call. *)
Theorem add_knowledge_records_facts (g : Minesweeper.t) fuel (c : cell)
    (st st' : MinesweeperAI.t) :
  reachable g st →
  Minesweeper.is_mine g c = false →
  add_knowledge fuel c (Minesweeper.nearby_mines g c) st = Some st' →
  Forall (λ s, Sentence.known_safes s ⊆ safes st'
               ∧ Sentence.known_mines s ⊆ mines st')
         ((Sentence.mark_safe c <$> knowledge st)
          ++ [new_sentence (mark_safe c (add_move c st)) c
                           (Minesweeper.nearby_mines g c)])
  ∧ (Minesweeper.nearby_mines g c = 0 → nearby_cells st c ⊆ safes st').
Proof.
  intros Hr Hc Hrun. apply is_mine_false in Hc.
  pose proof (reachable_sound g st Hr) as Hst.
  pose proof (add_knowledge_facts g fuel c st st' Hst Hc Hrun) as [HS HN].
  simpl in HS, HN.
  assert (Forall (λ s, Sentence.known_safes s ⊆ safes st'
                       ∧ Sentence.known_mines s ⊆ mines st')
            ((Sentence.mark_safe c <$> knowledge st)
             ++ [new_sentence (mark_safe c (add_move c st)) c
                              (Minesweeper.nearby_mines g c)])) as Hall.
  { eapply Forall_impl; [apply known_subseteq_union|].
    intros s [H1 H2]. simpl in H1, H2. split; set_solver. }
  split; [exact Hall|]. intros H0 x Hx.
  apply Forall_app in Hall as [_ Hnew]. apply Forall_singleton in Hnew as [Hnew _].
  rewrite new_sentence_opened in Hnew.
  destruct Hst as [Hh Hw Hmv Hmn Hsf _].
  pose proof (nearby_mines_spec g st c Hh Hw) as Hcount.
  rewrite H0 in Hcount. symmetry in Hcount. apply len_zero in Hcount.
  assert (nearby_cells st c ∩ mines st = ∅) as Hnone by set_solver.
  apply add_knowledge_sets in Hrun as (_ & _ & _ & Hsafe & _).
  pose proof (reachable_moves_safe g st Hr) as Hms.
  destruct (decide (x ∈ safes st)); [set_solver|].
  apply Hnew. apply known_safes_elem. simpl. rewrite Hnone, H0.
  split; [unfold len; rewrite size_empty; lia|]. set_solver.
Qed.

Lemma add_knowledge_records_facts_witness :
  reachable Examples.board Examples.game2
  ∧ nearby_cells Examples.game2 (0,1) ⊆ safes Examples.game3.
Proof.
  pose proof game2_reachable as H.
  split; [exact H|].
  apply (add_knowledge_records_facts Examples.board 1 (0,1)
           Examples.game2 Examples.game3 H).
  - reflexivity.
  - vm_compute. reflexivity.
  - vm_compute. reflexivity.
Defined.

(** ** Marking a cell in the player's state *)

Lemma state_eq (st st' : MinesweeperAI.t) :
  height st = height st' → width st = width st' →
  moves_made st = moves_made st' → mines st = mines st' →
  safes st = safes st' → knowledge st = knowledge st' → st = st'.
Proof. destruct st, st'. simpl. by intros -> -> -> -> -> ->. Qed.

(** X16: the engine-level [mark_mine] and [mark_safe] can be repeated and
    reordered: marking a cell a second time in the same way changes
    nothing, and marks of two different cells give the same state in
    either order. *)
Theorem state_marks (a b : cell) (st : MinesweeperAI.t) :
  mark_mine a (mark_mine a st) = mark_mine a st
  ∧ mark_safe a (mark_safe a st) = mark_safe a st
  ∧ (a ≠ b →
     mark_mine a (mark_safe b st) = mark_safe b (mark_mine a st)
     ∧ mark_mine a (mark_mine b st) = mark_mine b (mark_mine a st)
     ∧ mark_safe a (mark_safe b st) = mark_safe b (mark_safe a st)).
Proof.
  split_and!; [| |intros Hab; split_and!];
    apply state_eq; simpl; try done; try set_solver;
    rewrite <- !list_fmap_compose; apply list_fmap_ext; intros k s _; simpl.
  - apply mark_mine_absent. rewrite mark_mine_cells. set_solver.
  - apply mark_safe_absent. rewrite mark_safe_cells. set_solver.
  - by apply sentence_marks_commute.
  - by apply sentence_marks_commute.
  - by apply sentence_marks_commute.
Qed.

(** X17: in play on a board, after [add_knowledge] for a cell with
    reported count 0 that has a neighbour not yet opened, [make_safe_move]
    returns a cell. *)
Theorem safe_move_after_zero (g : Minesweeper.t) fuel (c x : cell)
    (order : list cell) (st st' : MinesweeperAI.t) :
  reachable g st →
  Minesweeper.is_mine g c = false →
  Minesweeper.nearby_mines g c = 0 →
  add_knowledge fuel c 0 st = Some st' →
  x ∈ nearby_cells st c → x ∉ moves_made st →
  (∀ y, y ∈ order ↔ y ∈ safes st') →
  is_Some (make_safe_move order st').1.
Proof.
  intros Hr Hc H0 Hrun Hx Hxm Horder.
  rewrite <- H0 in Hrun.
  destruct (add_knowledge_facts g fuel c st st' (reachable_sound g st Hr)
              (proj1 (is_mine_false g c) Hc) Hrun) as [HS _].
  assert (x ∈ safes st') as Hsafe.
  { pose proof (reachable_sound g st Hr) as [Hh Hw Hmv Hmn Hsf _].
    pose proof (nearby_mines_spec g st c Hh Hw) as Hcount.
    rewrite H0 in Hcount. symmetry in Hcount. apply len_zero in Hcount.
    assert (nearby_cells st c ∩ mines st = ∅) as Hnone by set_solver.
    pose proof (add_knowledge_sets _ _ _ _ _ Hrun) as (_ & _ & _ & Hgrow & _).
    destruct (decide (x ∈ safes st)); [set_solver|].
    apply HS. rewrite fmap_app, union_list_app_L. apply elem_of_union_r.
    simpl. rewrite (right_id_L ∅ (∪)), new_sentence_opened.
    apply known_safes_elem. simpl. rewrite Hnone, H0.
    split; [unfold len; rewrite size_empty; lia|]. set_solver. }
  assert (x ∉ moves_made st') as Hfree.
  { pose proof (add_knowledge_sets _ _ _ _ _ Hrun) as (_ & _ & -> & _).
    pose proof (nearby_cells_not_self st c).
    rewrite elem_of_union, elem_of_singleton. intros [->|?]; done. }
  simpl. destruct (first_safe order st') as [y|] eqn:E; [eauto|].
  destruct Hfree.
  apply (first_safe_None order st' x E); [by apply Horder|done].
Qed.

Lemma safe_move_after_zero_witness :
  reachable Examples.board Examples.game2
  ∧ is_Some (make_safe_move (elements (safes Examples.game3)) Examples.game3).1.
Proof.
  pose proof game2_reachable as H.
  split; [exact H|].
  apply (safe_move_after_zero Examples.board 1 (0,1) (0,2)
           (elements (safes Examples.game3)) Examples.game2 Examples.game3 H).
  - reflexivity.
  - vm_compute. reflexivity.
  - vm_compute. reflexivity.
  - apply (bool_decide_unpack _). vm_compute. exact I.
  - apply (bool_decide_unpack _). vm_compute. exact I.
  - intros y. apply elem_of_elements.
Defined.

(** * The order of the sentences *)

(** ** Sentences whose cells are disjoint or nested *)

Lemma laminar_elem K s s' :
  laminar K → s ∈ K → s' ∈ K →
  cells s ## cells s' ∨ cells s ⊆ cells s' ∨ cells s' ⊆ cells s.
Proof.
  unfold laminar. rewrite Forall_forall. intros H Hs Hs'.
  specialize (H s Hs). rewrite Forall_forall in H. by apply H.
Qed.

Lemma laminar_Permutation K1 K2 : K1 ≡ₚ K2 → laminar K1 → laminar K2.
Proof.
  intros Hp H. unfold laminar. rewrite <- Hp.
  eapply Forall_impl; [exact H|]. intros s Hs. simpl in Hs. by rewrite <- Hp.
Qed.

Lemma elem_of_mentioned K x : x ∈ mentioned K ↔ ∃ s, s ∈ K ∧ x ∈ cells s.
Proof.
  unfold mentioned. rewrite elem_of_union_list. split.
  - intros (X & HX & Hx). apply list_elem_of_fmap in HX as (s & -> & Hs). eauto.
  - intros (s & Hs & Hx). exists (cells s). split; [|done].
    by apply list_elem_of_fmap_2.
Qed.

Lemma mentioned_Permutation K1 K2 : K1 ≡ₚ K2 → mentioned K1 = mentioned K2.
Proof.
  intros Hp. apply set_eq. intros x. rewrite !elem_of_mentioned.
  by setoid_rewrite Hp.
Qed.

Lemma same_class_Permutation K1 K2 x y :
  K1 ≡ₚ K2 → same_class K1 x y ↔ same_class K2 x y.
Proof. intros Hp. unfold same_class. by setoid_rewrite Hp. Qed.

Lemma same_class_sym K x y : same_class K x y → same_class K y x.
Proof. intros H s Hs. by rewrite (H s Hs). Qed.

Lemma elem_of_below K0 x y :
  y ∈ below K0 x
  ↔ y ∈ mentioned K0 ∧ ∀ s0, s0 ∈ K0 → x ∈ cells s0 → y ∈ cells s0.
Proof.
  unfold below. rewrite elem_of_filter, Forall_forall. tauto.
Qed.

Lemma below_self K0 x : x ∈ mentioned K0 → x ∈ below K0 x.
Proof. intros Hx. apply elem_of_below. auto. Qed.

Lemma below_trans K0 x y : y ∈ below K0 x → below K0 y ⊆ below K0 x.
Proof.
  intros Hy z Hz. apply elem_of_below in Hy as [_ Hy].
  apply elem_of_below in Hz as [Hz1 Hz2]. apply elem_of_below. split; [done|].
  intros s0 Hs0 Hx. apply Hz2; [done|]. by apply Hy.
Qed.

Lemma below_same_class K0 x y :
  y ∈ below K0 x → x ∈ below K0 y → same_class K0 x y.
Proof.
  intros [_ Hy]%elem_of_below [_ Hx]%elem_of_below s Hs. split; eauto.
Qed.

(** The smallest sentence with a given cell. *)
Lemma smallest_with K x :
  x ∈ mentioned K →
  ∃ s, s ∈ K ∧ x ∈ cells s
       ∧ ∀ s', s' ∈ K → x ∈ cells s' → (size (cells s) ≤ size (cells s'))%nat.
Proof.
  induction K as [|s K IH]; intros Hx.
  { apply elem_of_mentioned in Hx as (s0 & Hs0 & _).
    by apply elem_of_nil in Hs0. }
  destruct (decide (x ∈ mentioned K)) as [HxK|Hnone].
  - destruct (IH HxK) as (m & Hm & Hxm & Hmin).
    destruct (decide (x ∈ cells s ∧ (size (cells s) < size (cells m))%nat))
      as [[Hxs Hlt]|Hge].
    + exists s. split_and!; [apply list_elem_of_here|done|].
      intros s' [->|Hs']%elem_of_cons Hx'; [done|].
      specialize (Hmin s' Hs' Hx'). lia.
    + exists m. split_and!; [by apply list_elem_of_further|done|].
      intros s' [->|Hs']%elem_of_cons Hx'; [|by apply Hmin].
      destruct (decide (size (cells m) ≤ size (cells s))%nat); [done|].
      destruct Hge. split; [done|lia].
  - assert (∀ s', s' ∈ K → x ∉ cells s') as Hnot.
    { intros s' Hs' Hx'. apply Hnone, elem_of_mentioned. eauto. }
    apply elem_of_mentioned in Hx as (s0 & Hs0 & Hx0).
    apply elem_of_cons in Hs0 as [->|Hs0]; [|by destruct (Hnot s0 Hs0)].
    exists s. split_and!; [apply list_elem_of_here|done|].
    intros s' [->|Hs']%elem_of_cons Hx'; [done|]. by destruct (Hnot s' Hs').
Qed.

Lemma class_covered_start K : laminar K → class_covered K K.
Proof.
  intros Hlam x Hx. destruct (smallest_with K x Hx) as (s & Hs & Hxs & Hmin).
  exists s. split_and!; [done..|]. intros s0 Hs0 Hx0.
  destruct (laminar_elem K s s0 Hlam Hs Hs0) as [Hd|[Hsub|Hsub]].
  - set_solver.
  - done.
  - specialize (Hmin s0 Hs0 Hx0).
    by rewrite (set_subseteq_size_eq (cells s0) (cells s) Hsub Hmin).
Qed.

Lemma class_closed_start K : Forall (class_closed K) K.
Proof.
  apply Forall_forall. intros s Hs x y Hx Hxy. by apply (Hxy s Hs).
Qed.

Lemma class_closed_subtract K s s' :
  class_closed K s → class_closed K s' → cells s ≠ ∅ → cells s ⊂ cells s' →
  class_closed K (mkSentence (cells s' ∖ cells s) (count s' - count s)).
Proof.
  intros Hs Hs' _ _ x y. simpl. rewrite !elem_of_difference.
  intros [Hx Hnx] Hxy. split; [by apply (Hs' x y)|].
  intros Hy. apply Hnx. apply (Hs y x); [done|by apply same_class_sym].
Qed.

Lemma mentioned_subtract (U : gset cell) s s' :
  cells s ⊆ U → cells s' ⊆ U → cells s ≠ ∅ → cells s ⊂ cells s' →
  cells (mkSentence (cells s' ∖ cells s) (count s' - count s)) ⊆ U.
Proof. simpl. set_solver. Qed.

Lemma mentioned_start K : Forall (λ s, cells s ⊆ mentioned K) K.
Proof.
  apply Forall_forall. intros s Hs x Hx. apply elem_of_mentioned. eauto.
Qed.

(** *** The classes through the loops *)

Lemma eliminate_keeps_outer i jdx j K b :
  K !! jdx = Some j → (cells i ≠ ∅ → i ∈ K) →
  cells i ≠ ∅ → i ∈ (eliminate i jdx j (K, b)).1.
Proof.
  intros Hj Hi Hne. specialize (Hi Hne).
  destruct (eliminate_kind i jdx j K b) as [_ _ Hsub| |_]; simpl.
  - destruct (elem_of_insert_or K jdx j
      (mkSentence (cells j ∖ cells i) (count j - count i)) i Hj Hi)
      as [->|?]; [|done].
    by destruct Hsub as [_ []].
  - done.
  - by do 2 (apply elem_of_prune_live; [|done]).
Qed.

(** A property of the knowledge list is kept by [knowledge_update] when
    every step keeps it, the sentence of the outer loop being in the list
    as long as it has cells. *)
Lemma pass_inv_member (P : list Sentence → Prop) K K' b :
  (∀ i jdx j K1 b1,
      K1 !! jdx = Some j → (cells i ≠ ∅ → i ∈ K1) → P K1 →
      P (eliminate i jdx j (K1, b1)).1) →
  P K → pass K = Some (K', b) → P K'.
Proof.
  intros Hstep HK. unfold pass.
  apply (for_in_inv _ _ (λ s, P s.1)); [|done].
  intros idx i [K0 b0] st1 Hi H0 Hin. simpl in Hi, H0.
  cut (P st1.1 ∧ (cells i ≠ ∅ → i ∈ st1.1)); [tauto|].
  revert Hin.
  apply (inner_loop_inv (λ s, P s.1 ∧ (cells i ≠ ∅ → i ∈ s.1))).
  - intros jdx j K1 b1 Hj [H1 H2]. split.
    + by apply Hstep.
    + by apply eliminate_keeps_outer.
  - split; [done|]. intros _. apply list_elem_of_lookup. eauto.
Qed.

Lemma knowledge_loop_inv_member (P : list Sentence → Prop) fuel K K' :
  (∀ i jdx j K1 b1,
      K1 !! jdx = Some j → (cells i ≠ ∅ → i ∈ K1) → P K1 →
      P (eliminate i jdx j (K1, b1)).1) →
  P K → knowledge_loop fuel K = Some K' → P K'.
Proof.
  intros Hstep. apply (knowledge_loop_inv P).
  intros K1 K2 b H1. by apply pass_inv_member.
Qed.

Lemma eliminate_covered K0 i jdx j K b :
  K !! jdx = Some j → (cells i ≠ ∅ → i ∈ K) →
  class_covered K0 K → class_covered K0 (eliminate i jdx j (K, b)).1.
Proof.
  intros Hj Hi Hcov x Hx. destruct (Hcov x Hx) as (s & Hs & Hxs & Hmin).
  destruct (eliminate_kind i jdx j K b) as [Hi0 _ Hsub| |_]; simpl.
  - specialize (Hi Hi0).
    set (j' := mkSentence (cells j ∖ cells i) (count j - count i)).
    destruct (elem_of_insert_or K jdx j j' s Hj Hs) as [->|?];
      [|by exists s].
    destruct (decide (x ∈ cells i)) as [Hxi|Hxi].
    + exists i. split_and!; [|done|].
      * destruct (elem_of_insert_or K jdx j j' i Hj Hi) as [->|?]; [|done].
        by destruct Hsub as [_ []].
      * intros s0 Hs0 Hx0. destruct Hsub as [Hsub _].
        etrans; [exact Hsub|by apply Hmin].
    + exists j'. split_and!.
      * apply list_elem_of_lookup. exists jdx.
        apply list_lookup_insert_eq. by apply lookup_lt_Some in Hj.
      * simpl. by apply elem_of_difference.
      * intros s0 Hs0 Hx0. specialize (Hmin s0 Hs0 Hx0). simpl. set_solver.
  - by exists s.
  - exists s. split_and!; [|done..].
    do 2 (apply elem_of_prune_live; [|set_solver]). done.
Qed.

(** *** The classes when the loop has nothing left to do *)

Lemma settled_classes K0 K :
  settled K → Forall (class_closed K0) K →
  Forall (λ s, cells s ⊆ mentioned K0) K → class_covered K0 K →
  ∀ s x, s ∈ K → x ∈ cells s → ∀ y, y ∈ cells s ↔ same_class K0 x y.
Proof.
  intros [_ Hset] Hclosed Hin Hcov.
  rewrite Forall_forall in Hclosed. rewrite Forall_forall in Hin.
  cut (∀ n x, (size (below K0 x) < n)%nat →
         ∀ s, s ∈ K → x ∈ cells s → ∀ y, y ∈ cells s ↔ same_class K0 x y).
  { intros H s x. apply (H (S (size (below K0 x)))). lia. }
  induction n as [|n IH]; intros x Hn s Hs Hx; [lia|].
  assert (x ∈ mentioned K0) as HxU by (by apply (Hin s Hs)).
  destruct (Hcov x HxU) as (p & Hp & Hxp & Hmin).
  assert (∀ y, y ∈ cells p → y ∈ below K0 x) as Hbelow.
  { intros y Hy. apply elem_of_below. split; [by apply (Hin p Hp)|].
    intros s0 Hs0 Hx0. by apply (Hmin s0 Hs0 Hx0). }
  assert (∀ y, y ∈ cells p → same_class K0 x y) as Hsame.
  { intros y Hy. destruct (decide (x ∈ below K0 y)) as [Hxy|Hxy].
    - apply below_same_class; [by apply Hbelow|done].
    - assert (size (below K0 y) < n)%nat as Hlt.
      { assert (below K0 y ⊂ below K0 x) as Hsub.
        { split; [by apply below_trans, Hbelow|].
          intros Hsup. apply Hxy, Hsup, below_self, HxU. }
        apply subset_size in Hsub. lia. }
      apply same_class_sym. by apply (IH y Hlt p Hp Hy x). }
  assert (∀ y, y ∈ cells p ↔ same_class K0 x y) as Hp_class.
  { intros y. split; [apply Hsame|]. intros Hxy. by apply (Hclosed p Hp x y). }
  assert (cells p ⊆ cells s) as Hps.
  { intros y Hy. apply (Hclosed s Hs x y); [done|by apply Hsame]. }
  assert (cells s ⊆ cells p) as Hsp.
  { destruct (decide (cells s ⊆ cells p)) as [|Hn']; [done|].
    destruct (Hset p s Hp Hs). by split. }
  intros y. rewrite <- Hp_class. set_solver.
Qed.

Section settled_facts.
Variable M : gset cell.
Variables K0 K : list Sentence.
Hypothesis Hsettled : settled K.
Hypothesis Hclosed : Forall (class_closed K0) K.
Hypothesis Hin : Forall (λ s, cells s ⊆ mentioned K0) K.
Hypothesis Hcov : class_covered K0 K.
Hypothesis Htrue : Forall (holds M) K.

Lemma settled_known_safes x :
  x ∈ ⋃ (Sentence.known_safes <$> K)
  ↔ x ∈ mentioned K0 ∧ ∀ y, same_class K0 x y → y ∉ M.
Proof.
  rewrite elem_of_union_known_safes. split.
  - intros (s & Hs & H0 & Hx).
    pose proof (proj1 (Forall_forall _ _) Hin s Hs) as Hs_in.
    pose proof (proj1 (Forall_forall _ _) Htrue s Hs) as Hs_true.
    pose proof (proj1 (Forall_forall _ _) Hclosed s Hs) as Hs_closed.
    split; [by apply Hs_in|]. intros y Hxy.
    pose proof (holds_no_mine M s Hs_true H0) as Hd.
    specialize (Hs_closed x y Hx Hxy). set_solver.
  - intros [HxU Hsafe]. destruct (Hcov x HxU) as (s & Hs & Hx & _).
    exists s. split_and!; [done| |done].
    pose proof (proj1 (Forall_forall _ _) Htrue s Hs) as Hs_true.
    apply (holds_disjoint_count M); [done|]. intros y Hy HyM.
    apply (Hsafe y); [|done].
    by apply (settled_classes K0 K Hsettled Hclosed Hin Hcov s x Hs Hx y).
Qed.

Lemma settled_known_mines x :
  x ∈ ⋃ (Sentence.known_mines <$> K)
  ↔ x ∈ mentioned K0 ∧ ∀ y, same_class K0 x y → y ∈ M.
Proof.
  rewrite elem_of_union_known_mines. split.
  - intros (s & Hs & Hall & Hn0 & Hx).
    pose proof (proj1 (Forall_forall _ _) Hin s Hs) as Hs_in.
    pose proof (proj1 (Forall_forall _ _) Htrue s Hs) as Hs_true.
    pose proof (proj1 (Forall_forall _ _) Hclosed s Hs) as Hs_closed.
    split; [by apply Hs_in|]. intros y Hxy.
    pose proof (holds_all_mines M s Hs_true Hall) as Hm.
    apply Hm. by apply (Hs_closed x y).
  - intros [HxU Hmine]. destruct (Hcov x HxU) as (s & Hs & Hx & _).
    pose proof (proj1 (Forall_forall _ _) Htrue s Hs) as Hs_true.
    assert (cells s ⊆ M) as Hsub.
    { intros y Hy. apply Hmine.
      by apply (settled_classes K0 K Hsettled Hclosed Hin Hcov s x Hs Hx y). }
    pose proof (holds_subset_count M s Hs_true Hsub) as Hc.
    exists s. split_and!; [done|done| |done].
    rewrite Hc. apply len_nonzero. set_solver.
Qed.

End settled_facts.

(** *** The run on sentences that are true, not empty, and disjoint or
    nested *)

Lemma nested_run M fuel K0 K :
  laminar K0 → Forall (λ s, cells s ≠ ∅) K0 → Forall (holds M) K0 →
  knowledge_loop fuel K0 = Some K →
  (∀ x, x ∈ ⋃ (Sentence.known_safes <$> K)
        ↔ x ∈ mentioned K0 ∧ ∀ y, same_class K0 x y → y ∉ M)
  ∧ (∀ x, x ∈ ⋃ (Sentence.known_mines <$> K)
          ↔ x ∈ mentioned K0 ∧ ∀ y, same_class K0 x y → y ∈ M).
Proof.
  intros Hlam Hne Htrue Hrun.
  assert (settled K) as H1 by (by eapply knowledge_loop_reaches_settled).
  assert (Forall (class_closed K0) K) as H2.
  { eapply (knowledge_loop_Forall (class_closed K0));
      [apply class_closed_subtract|apply class_closed_start|exact Hrun]. }
  assert (Forall (λ s, cells s ⊆ mentioned K0) K) as H3.
  { eapply (knowledge_loop_Forall (λ s, cells s ⊆ mentioned K0));
      [apply mentioned_subtract|apply mentioned_start|exact Hrun]. }
  assert (class_covered K0 K) as H4.
  { eapply (knowledge_loop_inv_member (class_covered K0));
      [|by apply class_covered_start|exact Hrun].
    intros i jdx j K1 b1. apply eliminate_covered. }
  assert (Forall (holds M) K) as H5 by (by eapply knowledge_loop_holds).
  split; intros x.
  - by apply settled_known_safes.
  - by apply settled_known_mines.
Qed.

Lemma nested_runs_agree M fuel1 fuel2 K1 K2 K1' K2' :
  K1 ≡ₚ K2 →
  laminar K1 → Forall (λ s, cells s ≠ ∅) K1 → Forall (holds M) K1 →
  knowledge_loop fuel1 K1 = Some K1' → knowledge_loop fuel2 K2 = Some K2' →
  ⋃ (Sentence.known_safes <$> K1') = ⋃ (Sentence.known_safes <$> K2')
  ∧ ⋃ (Sentence.known_mines <$> K1') = ⋃ (Sentence.known_mines <$> K2').
Proof.
  intros Hp Hlam Hne Htrue Hrun1 Hrun2.
  destruct (nested_run M fuel1 K1 K1' Hlam Hne Htrue Hrun1) as [Hs1 Hm1].
  destruct (nested_run M fuel2 K2 K2') as [Hs2 Hm2]; [..|exact Hrun2|].
  - by apply (laminar_Permutation K1).
  - by rewrite <- Hp.
  - by rewrite <- Hp.
  - split; apply set_eq; intros x.
    + rewrite Hs1, Hs2, (mentioned_Permutation K1 K2 Hp).
      by setoid_rewrite (same_class_Permutation K1 K2 _ _ Hp).
    + rewrite Hm1, Hm2, (mentioned_Permutation K1 K2 Hp).
      by setoid_rewrite (same_class_Permutation K1 K2 _ _ Hp).
Qed.

(** C3, as the code has it.  For every list of sentences and each of its
    orders, [knowledge_update] followed by the extraction loop ends.  The
    sets of known mines and of known safe cells it ends with are the same
    for two orders when no sentence is empty and no sentence's cells are
    strictly inside another's, and also when the sentences are all true of
    some mine layout, none is empty and any two have their cells disjoint
    or one's among the other's.  When the sentences and the known sets are
    true of a mine layout, the known mines of every order are mines of the
    layout and the known safe cells of every order are not, so that no
    cell is a mine for one order and safe for another. *)
Theorem extraction_in_any_order (st1 st2 : MinesweeperAI.t) :
  knowledge st1 ≡ₚ knowledge st2 →
  mines st1 = mines st2 → safes st1 = safes st2 →
  ∃ r1 r2,
    (∀ extra, update_and_extract (S (total_cells (knowledge st1) + extra)) st1
              = Some r1)
    ∧ (∀ extra, update_and_extract (S (total_cells (knowledge st2) + extra)) st2
                = Some r2)
    ∧ (settled (knowledge st1) → mines r1 = mines r2 ∧ safes r1 = safes r2)
    ∧ ∀ M, Forall (holds M) (knowledge st1) →
        (Forall (λ s, cells s ≠ ∅) (knowledge st1) → laminar (knowledge st1) →
         mines r1 = mines r2 ∧ safes r1 = safes r2)
        ∧ (mines st1 ⊆ M → safes st1 ## M →
           mines r1 ⊆ M ∧ mines r2 ⊆ M ∧ safes r1 ## M ∧ safes r2 ## M
           ∧ mines r1 ## safes r2 ∧ mines r2 ## safes r1).
Proof.
  intros Hperm Hm Hs.
  destruct (knowledge_loop_is_Some (S (total_cells (knowledge st1)))
              (knowledge st1)) as [K1 HK1]; [lia|].
  destruct (knowledge_loop_is_Some (S (total_cells (knowledge st2)))
              (knowledge st2)) as [K2 HK2]; [lia|].
  exists (extract (set_knowledge K1 st1)), (extract (set_knowledge K2 st2)).
  destruct (extract_spec (set_knowledge K1 st1)) as (_ & _ & _ & _ & Es1 & Em1).
  destruct (extract_spec (set_knowledge K2 st2)) as (_ & _ & _ & _ & Es2 & Em2).
  simpl in Es1, Em1, Es2, Em2. rewrite <- Hm in Em2. rewrite <- Hs in Es2.
  split_and!.
  - intros extra. unfold update_and_extract, knowledge_update.
    by rewrite (knowledge_loop_fuel_mono _ _ _ _ HK1) by lia.
  - intros extra. unfold update_and_extract, knowledge_update.
    by rewrite (knowledge_loop_fuel_mono _ _ _ _ HK2) by lia.
  - intros Hset.
    pose proof (settled_Permutation _ _ Hperm Hset) as Hset2.
    rewrite knowledge_loop_settled in HK1, HK2 by done.
    injection HK1 as <-. injection HK2 as <-.
    rewrite Em1, Em2, Es1, Es2.
    rewrite (union_list_permutation_proper_L _ _
               (fmap_Permutation Sentence.known_mines _ _ Hperm)).
    rewrite (union_list_permutation_proper_L _ _
               (fmap_Permutation Sentence.known_safes _ _ Hperm)).
    done.
  - intros M Htrue. split.
    + intros Hne Hlam.
      destruct (nested_runs_agree M _ _ _ _ _ _ Hperm Hlam Hne Htrue HK1 HK2)
        as [Hsafe Hmine].
      by rewrite Em1, Em2, Es1, Es2, Hsafe, Hmine.
    + intros HmM HsM.
      assert (Forall (holds M) (knowledge st2)) as Htrue2
        by (by rewrite <- Hperm).
      pose proof (knowledge_loop_holds M _ _ _ Htrue HK1) as H1.
      pose proof (knowledge_loop_holds M _ _ _ Htrue2 HK2) as H2.
      pose proof (union_known_safes_sound M _ H1).
      pose proof (union_known_mines_sound M _ H1).
      pose proof (union_known_safes_sound M _ H2).
      pose proof (union_known_mines_sound M _ H2).
      rewrite Em1, Em2, Es1, Es2. split_and!; set_solver.
Qed.

Lemma extraction_in_any_order_witness :
  knowledge OrderExamples.outer_first ≡ₚ knowledge OrderExamples.inner_first
  ∧ ∃ r1 r2,
      update_and_extract 4 OrderExamples.outer_first = Some r1
      ∧ update_and_extract 4 OrderExamples.inner_first = Some r2
      ∧ mines r1 = mines r2 ∧ safes r1 = safes r2
      ∧ mines r1 ## safes r2
      ∧ mines r1 = {[(0,0)]} ∧ safes r2 = {[(0,1)]}.
Proof.
  assert (knowledge OrderExamples.outer_first
          ≡ₚ knowledge OrderExamples.inner_first) as Hperm by apply perm_swap.
  split; [exact Hperm|].
  destruct (extraction_in_any_order OrderExamples.outer_first
              OrderExamples.inner_first Hperm eq_refl eq_refl)
    as (r1 & r2 & H1 & H2 & _ & HM).
  destruct (HM {[(0,0)]}) as [Heq Hsound].
  { apply (bool_decide_unpack _). vm_compute. exact I. }
  destruct Heq as [Hmines Hsafes].
  { apply (bool_decide_unpack _). vm_compute. exact I. }
  { apply (bool_decide_unpack _). vm_compute. exact I. }
  destruct Hsound as (_ & _ & _ & _ & Hdisj & _).
  { apply (bool_decide_unpack _). vm_compute. exact I. }
  { apply (bool_decide_unpack _). vm_compute. exact I. }
  pose proof (H1 0%nat) as E1. pose proof (H2 0%nat) as E2.
  change (update_and_extract 4 OrderExamples.outer_first = Some r1) in E1.
  change (update_and_extract 4 OrderExamples.inner_first = Some r2) in E2.
  exists r1, r2. split_and!; try done.
  - assert (update_and_extract 4 OrderExamples.outer_first
            = Some OrderExamples.outer_first_result) as E
      by (vm_compute; reflexivity).
    rewrite E in E1. by injection E1 as <-.
  - assert (update_and_extract 4 OrderExamples.inner_first
            = Some OrderExamples.inner_first_result) as E
      by (vm_compute; reflexivity).
    rewrite E in E2. by injection E2 as <-.
Defined.

(** Each of the three conditions is needed for two orders to agree: with
    an empty sentence in the list, and with sentences that are true of no
    mine layout, the known sets depend on the order although the cells of
    any two sentences are disjoint or nested (the three sentences that
    refute C3 as stated are true and not empty, with cells that overlap). *)
Lemma order_matters_otherwise :
  (knowledge OrderExamples.empty_first ≡ₚ knowledge OrderExamples.empty_last
   ∧ laminar (knowledge OrderExamples.empty_first)
   ∧ Forall (holds {[(0,0)]}) (knowledge OrderExamples.empty_first)
   ∧ update_and_extract 3 OrderExamples.empty_first
     = Some OrderExamples.empty_first_result
   ∧ update_and_extract 3 OrderExamples.empty_last
     = Some OrderExamples.empty_last_result
   ∧ safes OrderExamples.empty_first_result
     ≠ safes OrderExamples.empty_last_result)
  ∧ (knowledge OrderExamples.clear_first ≡ₚ knowledge OrderExamples.clear_second
     ∧ laminar (knowledge OrderExamples.clear_first)
     ∧ Forall (λ s, cells s ≠ ∅) (knowledge OrderExamples.clear_first)
     ∧ update_and_extract 3 OrderExamples.clear_first
       = Some OrderExamples.clear_first_result
     ∧ update_and_extract 3 OrderExamples.clear_second
       = Some OrderExamples.clear_second_result
     ∧ mines OrderExamples.clear_first_result
       ≠ mines OrderExamples.clear_second_result).
Proof.
  split; split_and!;
    try (vm_compute; reflexivity);
    try (apply (bool_decide_unpack _); vm_compute; exact I);
    try (apply (bool_decide_eq_false_1 _); vm_compute; reflexivity).
Qed.
